(** * A shallow embedding of the Socket.io chat server (index.js)

    The server keeps three global [Map]s ([users], [messageHistory],
    [rateLimitMap]) and registers one handler per inbound event.  The
    embedding below follows index.js function by function:

    - JavaScript strings are sequences of UTF-16 code units ([list N]);
    - event payloads are JSON-like values ([value]);
    - the handlers run in a small state-and-exception monad over a [world]
      that holds the three maps, the transport's channel membership, the
      outbox of emitted events and the clock read by [Date.now()].

    [console.log] / [console.error] calls are not modelled: they touch none
    of the state above and are not visible to clients. *)

From Stdlib Require Import ZArith NArith Lia String Ascii.
From stdpp Require Import base decidable option list numbers gmap.

Local Open Scope N_scope.
Set Warnings "-clear-no-such-hyp".

(* ====================================================================== *)
(** ** JavaScript strings *)
(* ====================================================================== *)

(** A JavaScript string is a finite sequence of 16-bit code units;
    [.length], [.substring], [===] all work on code units. *)
Abbreviation jsstring := (list N).

(** Source literals are written as Rocq strings (UTF-8 bytes) and decoded
    into code units, so that ["é"] is the single unit 233 as in the source. *)
Fixpoint utf16_of_utf8 (bs : list N) : jsstring :=
  match bs with
  | [] => []
  | b :: rest =>
      if b <? 128 then b :: utf16_of_utf8 rest
      else if b <? 224 then
        match rest with
        | c :: rest' => ((b - 192) * 64 + (c - 128)) :: utf16_of_utf8 rest'
        | _ => []
        end
      else if b <? 240 then
        match rest with
        | c :: d :: rest' =>
            ((b - 224) * 4096 + (c - 128) * 64 + (d - 128)) :: utf16_of_utf8 rest'
        | _ => []
        end
      else
        match rest with
        | c :: d :: e :: rest' =>
            let cp := (b - 240) * 262144 + (c - 128) * 4096 + (d - 128) * 64 + (e - 128) in
            (55296 + (cp - 65536) / 1024) :: (56320 + (cp - 65536) mod 1024)
              :: utf16_of_utf8 rest'
        | _ => []
        end
  end.

Fixpoint bytes_of_string (s : string) : list N :=
  match s with
  | EmptyString => []
  | String a r => N_of_ascii a :: bytes_of_string r
  end.

Definition js (s : string) : jsstring := utf16_of_utf8 (bytes_of_string s).

(** [s.replace(/c/g, by)] for a one-character pattern [c] and a replacement
    text without [$] patterns: every occurrence of [c] becomes [by]. *)
Fixpoint replace_all (c : N) (by_ : jsstring) (s : jsstring) : jsstring :=
  match s with
  | [] => []
  | x :: r => if x =? c then by_ ++ replace_all c by_ r else x :: replace_all c by_ r
  end.

(** ECMAScript WhiteSpace and LineTerminator code points, the ones
    [String.prototype.trim] strips. *)
Definition is_white_space (c : N) : bool :=
  (c =? 9) || (c =? 10) || (c =? 11) || (c =? 12) || (c =? 13) || (c =? 32)
  || (c =? 160) || (c =? 5760) || ((8192 <=? c) && (c <=? 8202))
  || (c =? 8232) || (c =? 8233) || (c =? 8239) || (c =? 8287)
  || (c =? 12288) || (c =? 65279).

Fixpoint trim_start (s : jsstring) : jsstring :=
  match s with
  | [] => []
  | x :: r => if is_white_space x then trim_start r else s
  end.

Definition trim (s : jsstring) : jsstring :=
  reverse (trim_start (reverse (trim_start s))).

(** [s.substring(0, n)] *)
Definition substring0 (n : nat) (s : jsstring) : jsstring := take n s.

(* ====================================================================== *)
(** ** Event payloads *)
(* ====================================================================== *)

(** What socket.io hands to a handler as [data]: nothing at all
    ([undefined]), or a decoded JSON-like value.  Numbers are only ever
    inspected with [typeof] here, so their value is kept as an integer. *)
#[warnings="-register-all"]
Inductive value :=
| VUndefined
| VNull
| VBool (b : bool)
| VNumber (n : Z)
| VString (s : jsstring)
| VObject (fields : list (jsstring * value)).

(** The outcome of evaluating an expression or statement: a value, or a
    thrown exception (here always a [TypeError]). *)
Inductive result (A : Type) :=
| Ok (a : A)
| Throw.
Arguments Ok {A} a.
Arguments Throw {A}.

Fixpoint lookup_field (k : jsstring) (fields : list (jsstring * value)) : option value :=
  match fields with
  | [] => None
  | (k', v) :: r => if decide (k' = k) then Some v else lookup_field k r
  end.

(** [data.k] for the property names the handlers read ([username], [room],
    [message], [targetSocketId], [isTyping]): a [TypeError] on [undefined]
    and [null], [undefined] on the other primitives (none of these names is
    defined on a wrapper prototype), the own property on an object. *)
Definition get_prop (data : value) (k : jsstring) : result value :=
  match data with
  | VUndefined | VNull => Throw
  | VObject fields => Ok (default VUndefined (lookup_field k fields))
  | _ => Ok VUndefined
  end.

(* ====================================================================== *)
(** ** FONCTIONS UTILITAIRES: sanitizeInput *)
(* ====================================================================== *)

Definition sanitizeInput (text : value) : jsstring :=
  match text with
  | VString s =>
      substring0 500
        (trim
           (replace_all 47 (js "&#x2F;")
              (replace_all 39 (js "&#x27;")
                 (replace_all 34 (js "&quot;")
                    (replace_all 62 (js "&gt;")
                       (replace_all 60 (js "&lt;")
                          (replace_all 38 (js "&amp;") s)))))))
  | _ => []
  end.

(** The sanitizer as the specification words it: each of the six characters
    is replaced by its character reference, the result is trimmed and cut
    to 500 code units; anything that is not text gives the empty text. *)
Definition char_reference (c : N) : jsstring :=
  if c =? 38 then js "&amp;"
  else if c =? 60 then js "&lt;"
  else if c =? 62 then js "&gt;"
  else if c =? 34 then js "&quot;"
  else if c =? 39 then js "&#x27;"
  else if c =? 47 then js "&#x2F;"
  else [c].

Definition sanitize_spec (text : value) : jsstring :=
  match text with
  | VString s => take 500 (trim (flat_map char_reference s))
  | _ => []
  end.

(* ====================================================================== *)
(** ** STRUCTURES DE DONNÉES: the server's state *)
(* ====================================================================== *)

(** A JavaScript [Map] whose iteration order is observed: entries in
    insertion order, one entry per key.  [set] on a present key replaces the
    value where it stands, on a fresh key appends; [delete] removes. *)
Module JsMap.
Section Ops.
Context {V : Type}.

Fixpoint get (k : jsstring) (m : list (jsstring * V)) : option V :=
  match m with
  | [] => None
  | (k', v) :: r => if decide (k' = k) then Some v else get k r
  end.

Definition has (k : jsstring) (m : list (jsstring * V)) : bool :=
  bool_decide (is_Some (get k m)).

Fixpoint set (k : jsstring) (v : V) (m : list (jsstring * V)) : list (jsstring * V) :=
  match m with
  | [] => [(k, v)]
  | (k', v') :: r => if decide (k' = k) then (k, v) :: r else (k', v') :: set k v r
  end.

Fixpoint delete (k : jsstring) (m : list (jsstring * V)) : list (jsstring * V) :=
  match m with
  | [] => []
  | (k', v') :: r => if decide (k' = k) then delete k r else (k', v') :: delete k r
  end.
End Ops.
End JsMap.

(** Values of the [users] map: [{username, room, socketId}]. *)
Module User.
Record t := Make { username : jsstring; room : jsstring; socketId : jsstring }.
End User.

(** The message objects the handlers build, by their [type] field. *)
Inductive message :=
| SystemMessage (text : jsstring) (timestamp : Z) (room : jsstring)
| UserMessage (username text : jsstring) (timestamp : Z) (room socketId : jsstring)
| PrivateMessage (from to text : jsstring) (timestamp : Z)
    (fromSocketId toSocketId : jsstring).

Definition message_type (m : message) : jsstring :=
  match m with
  | SystemMessage _ _ _ => js "system"
  | UserMessage _ _ _ _ _ => js "user"
  | PrivateMessage _ _ _ _ _ _ => js "private"
  end.

Definition message_text (m : message) : jsstring :=
  match m with
  | SystemMessage t _ _ => t
  | UserMessage _ t _ _ _ => t
  | PrivateMessage _ _ t _ _ _ => t
  end.

(** Whom an emit addresses: [socket.emit], [io.to(room).emit],
    [socket.to(room).emit] (the room without the socket itself). *)
Inductive target :=
| ToSocket (socketId : jsstring)
| ToRoom (room : jsstring)
| ToRoomExcept (room socketId : jsstring).

Inductive payload :=
| PError (text : jsstring)
| PHistory (history : list message)
| PMessage (m : message)
| PUsersList (usersInRoom : list (jsstring * jsstring))   (* {username, socketId} *)
| PJoinSuccess (username room : jsstring) (usersCount : nat)
| PRoomChanged (room : jsstring) (usersCount : nat)
| PTyping (username : jsstring) (isTyping : value)
| PRoomsList (rooms : list (jsstring * nat)).              (* {name, usersCount} *)

Record emission := Emit { em_to : target; em_event : string; em_payload : payload }.

(** Everything a handler reads or writes.  [users] keeps insertion order
    (it is iterated); the two other maps are only accessed by key.
    [channels] is the transport's room membership as changed by
    [socket.join] / [socket.leave]; [outbox] collects the emitted events,
    oldest first; [clock] and [ticks] give the successive readings of
    [Date.now()]. *)
Record world := World {
  users : list (jsstring * User.t);
  messageHistory : gmap jsstring (list message);
  rateLimitMap : gmap jsstring (list Z);
  channels : list (jsstring * jsstring);
  outbox : list emission;
  clock : nat → Z;
  ticks : nat
}.

Definition with_users (f : list (jsstring * User.t) → list (jsstring * User.t)) (w : world) :=
  World (f (users w)) (messageHistory w) (rateLimitMap w) (channels w) (outbox w) (clock w) (ticks w).
Definition with_messageHistory (f : gmap jsstring (list message) → gmap jsstring (list message)) (w : world) :=
  World (users w) (f (messageHistory w)) (rateLimitMap w) (channels w) (outbox w) (clock w) (ticks w).
Definition with_rateLimitMap (f : gmap jsstring (list Z) → gmap jsstring (list Z)) (w : world) :=
  World (users w) (messageHistory w) (f (rateLimitMap w)) (channels w) (outbox w) (clock w) (ticks w).
Definition with_channels (f : list (jsstring * jsstring) → list (jsstring * jsstring)) (w : world) :=
  World (users w) (messageHistory w) (rateLimitMap w) (f (channels w)) (outbox w) (clock w) (ticks w).
Definition with_outbox (f : list emission → list emission) (w : world) :=
  World (users w) (messageHistory w) (rateLimitMap w) (channels w) (f (outbox w)) (clock w) (ticks w).
Definition with_ticks (f : nat → nat) (w : world) :=
  World (users w) (messageHistory w) (rateLimitMap w) (channels w) (outbox w) (clock w) (f (ticks w)).

(** The state at server start: three empty maps, nothing emitted. *)
Definition init (clk : nat → Z) : world := World [] ∅ ∅ [] [] clk 0.

(* ====================================================================== *)
(** ** The handler monad: state and exceptions *)
(* ====================================================================== *)

Definition M (A : Type) : Type := world → world * result A.

#[global] Instance M_ret : MRet M := λ A a w, (w, Ok a).
#[global] Instance M_bind : MBind M := λ A B f m w,
  match m w with
  | (w', Ok a) => f a w'
  | (w', Throw) => (w', Throw)
  end.

Definition gets {A} (f : world → A) : M A := λ w, (w, Ok (f w)).
Definition modify (f : world → world) : M unit := λ w, (f w, Ok ()).
Definition throw {A} : M A := λ w, (w, Throw).

(** [try { body } catch (error) { handler }] *)
Definition try_catch (body handler : M unit) : M unit := λ w,
  match body w with
  | (w', Throw) => handler w'
  | r => r
  end.

Definition lift_result {A} (r : result A) : M A :=
  match r with Ok a => mret a | Throw => throw end.

(** [Date.now()] *)
Definition Date_now : M Z := λ w, (with_ticks S w, Ok (clock w (ticks w))).

Definition emit (to : target) (ev : string) (p : payload) : M unit :=
  modify (with_outbox (λ o, o ++ [Emit to ev p])).

(** [socket.join(room)] and [socket.leave(room)]: the socket's set of rooms. *)
Definition socket_join (socket_id room : jsstring) : M unit :=
  modify (with_channels (λ c, if decide ((socket_id, room) ∈ c) then c else c ++ [(socket_id, room)])).
Definition socket_leave (socket_id room : jsstring) : M unit :=
  modify (with_channels (filter (λ p, p ≠ (socket_id, room)))).

(* ====================================================================== *)
(** ** FONCTIONS UTILITAIRES: rate limiting, presence, history *)
(* ====================================================================== *)

(** Configuration du rate limiting: max 10 messages par 10 secondes *)
Definition RATE_LIMIT_MAX : nat := 10.
Definition RATE_LIMIT_WINDOW : Z := 10000.

(** The timestamps of [timestamps] that are inside the window at [now]:
    [timestamps.filter(time => now - time < RATE_LIMIT_WINDOW)]. *)
Definition recent (now : Z) (timestamps : list Z) : list Z :=
  filter (λ time, (now - time < RATE_LIMIT_WINDOW)%Z) timestamps.

Definition isRateLimited (socketId : jsstring) : M bool :=
  now ← Date_now;
  timestamps ← gets (λ w, default [] (rateLimitMap w !! socketId));
  let recentTimestamps := recent now timestamps in
  modify (with_rateLimitMap <[socketId := recentTimestamps]>);;
  mret (bool_decide (RATE_LIMIT_MAX ≤ length recentTimestamps)%nat).

Definition addRateLimitTimestamp (socketId : jsstring) : M unit :=
  timestamps ← gets (λ w, default [] (rateLimitMap w !! socketId));
  now ← Date_now;
  modify (with_rateLimitMap <[socketId := timestamps ++ [now]]>).

(** The [forEach] loop of [getUsersInRoom] over the entries of [users]. *)
Fixpoint users_in_room (room : jsstring) (entries : list (jsstring * User.t))
  : list (jsstring * jsstring) :=
  match entries with
  | [] => []
  | (socketId, user) :: r =>
      if decide (User.room user = room)
      then (User.username user, socketId) :: users_in_room room r
      else users_in_room room r
  end.

Definition getUsersInRoom (room : jsstring) : M (list (jsstring * jsstring)) :=
  gets (λ w, users_in_room room (users w)).

(** The [for ... of] loop of [isUsernameAvailable], with its early return. *)
Fixpoint username_free (username room : jsstring) (entries : list (jsstring * User.t)) : bool :=
  match entries with
  | [] => true
  | (socketId, user) :: r =>
      if bool_decide (User.username user = username) && bool_decide (User.room user = room)
      then false
      else username_free username room r
  end.

Definition isUsernameAvailable (username room : jsstring) : M bool :=
  gets (λ w, username_free username room (users w)).

Definition addMessageToHistory (room : jsstring) (msg : message) : M unit :=
  has ← gets (λ w, bool_decide (is_Some (messageHistory w !! room)));
  (if negb has then modify (with_messageHistory <[room := []]>) else mret ());;
  history ← gets (λ w, messageHistory w !! room);
  match history with
  | None => throw
  | Some history =>
      let history := if bool_decide (100 ≤ length history)%nat then drop 1 history else history in
      modify (with_messageHistory <[room := history ++ [msg]]>)
  end.

Definition getMessageHistory (room : jsstring) : M (list message) :=
  gets (λ w, default [] (messageHistory w !! room)).

(* ====================================================================== *)
(** ** GESTION DES CONNEXIONS SOCKET.IO: the event handlers *)
(* ====================================================================== *)

(** [s || "general"] on a string [s] *)
Definition or_general (s : jsstring) : jsstring :=
  if bool_decide (s = []) then js "general" else s.

(** [!s] on a string [s] *)
Definition falsy (s : jsstring) : bool := bool_decide (s = []).

(** [users.get(key)] for an arbitrary key value: the keys are strings. *)
Definition users_get (key : value) (entries : list (jsstring * User.t)) : option User.t :=
  match key with
  | VString s => JsMap.get s entries
  | _ => None
  end.

Definition on_join (socket_id : jsstring) (data : value) : M unit :=
  try_catch
    (u ← lift_result (get_prop data (js "username"));
     let username := sanitizeInput u in
     r ← lift_result (get_prop data (js "room"));
     let room := or_general (sanitizeInput r) in
     if falsy username || (length username <? 2)%nat then
       emit (ToSocket socket_id) "error"
         (PError (js "Le nom d'utilisateur doit contenir au moins 2 caractères"))
     else
       available ← isUsernameAvailable username room;
       if negb available then
         emit (ToSocket socket_id) "error"
           (PError (js "Ce nom d'utilisateur est déjà pris dans cette salle"))
       else
         socket_join socket_id room;;
         modify (with_users (JsMap.set socket_id (User.Make username room socket_id)));;
         history ← getMessageHistory room;
         emit (ToSocket socket_id) "message_history" (PHistory history);;
         now ← Date_now;
         emit (ToRoom room) "user_joined"
           (PMessage (SystemMessage (username ++ js " a rejoint le chat") now room));;
         usersInRoom ← getUsersInRoom room;
         emit (ToRoom room) "users_list" (PUsersList usersInRoom);;
         emit (ToSocket socket_id) "join_success"
           (PJoinSuccess username room (length usersInRoom)))
    (emit (ToSocket socket_id) "error"
       (PError (js "Erreur lors de la connexion au chat"))).

Definition on_chat_message (socket_id : jsstring) (data : value) : M unit :=
  try_catch
    (user ← gets (λ w, JsMap.get socket_id (users w));
     match user with
     | None =>
         emit (ToSocket socket_id) "error"
           (PError (js "Vous devez d'abord rejoindre un salon"))
     | Some user =>
         limited ← isRateLimited socket_id;
         if (limited : bool) then
           emit (ToSocket socket_id) "error"
             (PError (js "Vous envoyez trop de messages. Veuillez patienter."))
         else
           m ← lift_result (get_prop data (js "message"));
           let text := sanitizeInput m in
           if falsy text || (length text =? 0)%nat then mret ()
           else
             addRateLimitTimestamp socket_id;;
             now ← Date_now;
             let messageObject :=
               UserMessage (User.username user) text now (User.room user) socket_id in
             addMessageToHistory (User.room user) messageObject;;
             emit (ToRoom (User.room user)) "received_message" (PMessage messageObject)
     end)
    (emit (ToSocket socket_id) "error"
       (PError (js "Erreur lors de l'envoi du message"))).

Definition on_private_message (socket_id : jsstring) (data : value) : M unit :=
  try_catch
    (sender ← gets (λ w, JsMap.get socket_id (users w));
     match sender with
     | None =>
         emit (ToSocket socket_id) "error"
           (PError (js "Vous devez d'abord rejoindre un salon"))
     | Some sender =>
         m ← lift_result (get_prop data (js "message"));
         let text := sanitizeInput m in
         targetSocketId ← lift_result (get_prop data (js "targetSocketId"));
         recipient ← gets (λ w, users_get targetSocketId (users w));
         match recipient, targetSocketId with
         | Some recipient, VString target =>
             limited ← isRateLimited socket_id;
             if (limited : bool) then
               emit (ToSocket socket_id) "error"
                 (PError (js "Vous envoyez trop de messages. Veuillez patienter."))
             else
               addRateLimitTimestamp socket_id;;
               now ← Date_now;
               let privateMessage :=
                 PrivateMessage (User.username sender) (User.username recipient) text now
                   socket_id target in
               emit (ToRoom target) "private_message_received" (PMessage privateMessage);;
               emit (ToSocket socket_id) "private_message_sent" (PMessage privateMessage)
         | _, _ =>
             emit (ToSocket socket_id) "error" (PError (js "Destinataire introuvable"))
         end
     end)
    (emit (ToSocket socket_id) "error"
       (PError (js "Erreur lors de l'envoi du message privé"))).

(** No [try]/[catch] here: a [TypeError] from [data.isTyping] leaves the
    handler uncaught. *)
Definition on_typing (socket_id : jsstring) (data : value) : M unit :=
  user ← gets (λ w, JsMap.get socket_id (users w));
  match user with
  | Some user =>
      isTyping ← lift_result (get_prop data (js "isTyping"));
      emit (ToRoomExcept (User.room user) socket_id) "user_typing"
        (PTyping (User.username user) isTyping)
  | None => mret ()
  end.

Definition on_change_room (socket_id : jsstring) (data : value) : M unit :=
  try_catch
    (user ← gets (λ w, JsMap.get socket_id (users w));
     match user with
     | None => mret ()
     | Some user =>
         r ← lift_result (get_prop data (js "room"));
         let newRoom := or_general (sanitizeInput r) in
         let oldRoom := User.room user in
         if bool_decide (oldRoom = newRoom) then mret ()
         else
           socket_leave socket_id oldRoom;;
           now ← Date_now;
           emit (ToRoom oldRoom) "user_left"
             (PMessage (SystemMessage (User.username user ++ js " a quitté la salle") now oldRoom));;
           usersInOldRoom ← getUsersInRoom oldRoom;
           emit (ToRoom oldRoom) "users_list" (PUsersList usersInOldRoom);;
           socket_join socket_id newRoom;;
           (* [user.room = newRoom] mutates the object stored under
              [socket.id]; [users.set(socket.id, user)] then stores it again *)
           let user := User.Make (User.username user) newRoom (User.socketId user) in
           modify (with_users (JsMap.set socket_id user));;
           modify (with_users (JsMap.set socket_id user));;
           history ← getMessageHistory newRoom;
           emit (ToSocket socket_id) "message_history" (PHistory history);;
           now ← Date_now;
           emit (ToRoom newRoom) "user_joined"
             (PMessage (SystemMessage (User.username user ++ js " a rejoint la salle") now newRoom));;
           usersInRoom ← getUsersInRoom newRoom;
           emit (ToRoom newRoom) "users_list" (PUsersList usersInRoom);;
           emit (ToSocket socket_id) "room_changed"
             (PRoomChanged newRoom (length usersInRoom))
     end)
    (emit (ToSocket socket_id) "error"
       (PError (js "Erreur lors du changement de salle"))).

(** The handler's own code; the transport drops the socket's channel
    memberships by itself. *)
Definition on_disconnect (socket_id : jsstring) : M unit :=
  user ← gets (λ w, JsMap.get socket_id (users w));
  match user with
  | Some user =>
      now ← Date_now;
      emit (ToRoom (User.room user)) "user_left"
        (PMessage (SystemMessage (User.username user ++ js " a quitté le chat") now
                     (User.room user)));;
      modify (with_users (JsMap.delete socket_id));;
      usersInRoom ← getUsersInRoom (User.room user);
      emit (ToRoom (User.room user)) "users_list" (PUsersList usersInRoom)
  | None => mret ()
  end;;
  modify (with_rateLimitMap (delete socket_id)).

Definition on_get_users (socket_id : jsstring) : M unit :=
  user ← gets (λ w, JsMap.get socket_id (users w));
  match user with
  | Some user =>
      usersInRoom ← getUsersInRoom (User.room user);
      emit (ToSocket socket_id) "users_list" (PUsersList usersInRoom)
  | None => mret ()
  end.

(** The [forEach] loop of [get_rooms], counting into a local [Map]. *)
Fixpoint room_counts (entries : list (jsstring * User.t)) (rooms : list (jsstring * nat))
  : list (jsstring * nat) :=
  match entries with
  | [] => rooms
  | (_, user) :: r =>
      let rooms :=
        if negb (JsMap.has (User.room user) rooms)
        then JsMap.set (User.room user) 0%nat rooms else rooms in
      room_counts r
        (JsMap.set (User.room user) (default 0 (JsMap.get (User.room user) rooms) + 1)%nat rooms)
  end.

Definition on_get_rooms (socket_id : jsstring) : M unit :=
  roomsList ← gets (λ w, room_counts (users w) []);
  emit (ToSocket socket_id) "rooms_list" (PRoomsList roomsList).

(** An inbound event: the socket it arrives on and its payload. *)
Inductive event :=
| Join (socket_id : jsstring) (data : value)
| ChatMessage (socket_id : jsstring) (data : value)
| PrivateMessageEv (socket_id : jsstring) (data : value)
| Typing (socket_id : jsstring) (data : value)
| ChangeRoom (socket_id : jsstring) (data : value)
| Disconnect (socket_id : jsstring)
| GetUsers (socket_id : jsstring)
| GetRooms (socket_id : jsstring).

Definition handle (e : event) : M unit :=
  match e with
  | Join s d => on_join s d
  | ChatMessage s d => on_chat_message s d
  | PrivateMessageEv s d => on_private_message s d
  | Typing s d => on_typing s d
  | ChangeRoom s d => on_change_room s d
  | Disconnect s => on_disconnect s
  | GetUsers s => on_get_users s
  | GetRooms s => on_get_rooms s
  end.

(** The event loop: one handler after the other; an uncaught exception
    ends the run. *)
Fixpoint run (es : list event) : M unit :=
  match es with
  | [] => mret ()
  | e :: r => handle e;; run r
  end.

(** The states the server can be in: those a run from the initial state
    ends in. *)
Definition reachable (w : world) : Prop :=
  ∃ clk es, run es (init clk) = (w, Ok ()).

(* ====================================================================== *)
(** ** Notions the properties are stated with *)
(* ====================================================================== *)

(** *** History *)

(** The last [n] elements of a list. *)
Definition last_n {A} (n : nat) (l : list A) : list A := drop (length l - n) l.

(** What [addMessageToHistory] leaves in a buffer that held [history]. *)
Definition push_capped (history : list message) (msg : message) : list message :=
  (if bool_decide (100 ≤ length history)%nat then drop 1 history else history) ++ [msg].

(** A sequence of appends to the history store, and the messages among
    them that went to [room], in order. *)
Fixpoint append_all (ops : list (jsstring * message)) : M unit :=
  match ops with
  | [] => mret ()
  | (room, msg) :: r => addMessageToHistory room msg;; append_all r
  end.

Definition appended_to (room : jsstring) (ops : list (jsstring * message)) : list message :=
  (filter (λ op, op.1 = room) ops).*2.

(** The buffer of [room], empty when the room has none. *)
Definition history_of (w : world) (room : jsstring) : list message :=
  default [] (messageHistory w !! room).

(** Every stored message has type user. *)
Definition only_user_messages (store : gmap jsstring (list message)) : Prop :=
  ∀ room history msg,
    store !! room = Some history → msg ∈ history → message_type msg = js "user".

#[global] Instance message_eq_dec : EqDecision message.
Proof. solve_decision. Defined.

(** *** Rate limiting *)

(** The stored window of a connection, empty when it has none, and the
    next reading of the clock. *)
Definition stored_of (w : world) (socketId : jsstring) : list Z :=
  default [] (rateLimitMap w !! socketId).

Definition now_of (w : world) : Z := clock w (ticks w).

(** The protocol the handlers follow around the limiter: check, and record
    an attempt when the check says not limited.  An admitted attempt yields
    the reading of the clock its check was made at and the timestamp that
    was recorded for it. *)
Definition attempt (socketId : jsstring) : M (option (Z * Z)) :=
  checked ← gets now_of;
  limited ← isRateLimited socketId;
  if (limited : bool) then mret None
  else
    addRateLimitTimestamp socketId;;
    stored ← gets (λ w, stored_of w socketId);
    mret ((λ recorded, (checked, recorded)) <$> last stored).

Fixpoint attempts (ids : list jsstring) : M (list (jsstring * (Z * Z))) :=
  match ids with
  | [] => mret []
  | socketId :: r =>
      a ← attempt socketId;
      log ← attempts r;
      mret (match a with Some t => (socketId, t) :: log | None => log end)
  end.

(** The admitted attempts of one connection, and those of a list of
    attempts that were checked, or recorded, in the window of 10,000 ms
    that starts at [t0]. *)
Definition admitted (socketId : jsstring) (log : list (jsstring * (Z * Z))) : list (Z * Z) :=
  (filter (λ a, a.1 = socketId) log).*2.

Definition checked_in_window (t0 : Z) (l : list (Z * Z)) : list (Z * Z) :=
  filter (λ a, (t0 ≤ a.1 < t0 + RATE_LIMIT_WINDOW)%Z) l.

Definition recorded_in_window (t0 : Z) (l : list (Z * Z)) : list (Z * Z) :=
  filter (λ a, (t0 ≤ a.2 < t0 + RATE_LIMIT_WINDOW)%Z) l.

(** A clock that never runs backwards. *)
Definition monotone (clk : nat → Z) : Prop := ∀ n, (clk n ≤ clk (S n))%Z.

(** What the limiter keeps for one connection, relative to the attempts
    [rec] admitted for it so far: the stored window is the recorded
    timestamps of [rec] without those at or below some horizon [θ] that
    lies a full window in the past; every attempt was recorded no earlier
    than it was checked; and no window holds more than the maximum of
    [rec], by check time or by recorded time. *)
Definition window_inv (w : world) (socketId : jsstring) (rec : list (Z * Z)) : Prop :=
  ∃ θ : Z,
    (θ + RATE_LIMIT_WINDOW ≤ now_of w)%Z
    ∧ stored_of w socketId = filter (λ t, θ < t)%Z rec.*2
    ∧ (∀ a, a ∈ rec → (a.1 ≤ a.2)%Z)
    ∧ ∀ t0, (length (checked_in_window t0 rec) ≤ RATE_LIMIT_MAX)%nat
            ∧ (length (recorded_in_window t0 rec) ≤ RATE_LIMIT_MAX)%nat.

(** The bound of the limiter read for every clock, with the admitted
    attempts placed in time by [in_window]: whatever the readings of
    [Date.now()], no window of 10,000 ms holds more than 10 admitted
    attempts of one connection. *)
Definition rate_limit_as_stated
    (in_window : Z → list (Z * Z) → list (Z * Z)) : Prop :=
  ∀ (clk : nat → Z) (ids : list jsstring) (socketId : jsstring) (t0 : Z),
    ∃ w log,
      attempts ids (init clk) = (w, Ok log)
      ∧ (length (in_window t0 (admitted socketId log)) ≤ 10)%nat.

(** *** Presence *)

(** The usernames on the user list of [room]; the registry keeps them
    unique when no room lists a name twice. *)
Definition usernames_in (room : jsstring) (entries : list (jsstring * User.t)) : list jsstring :=
  (users_in_room room entries).*1.

Definition unique_usernames (entries : list (jsstring * User.t)) : Prop :=
  ∀ room, NoDup (usernames_in room entries).

(** *** Handlers *)

(** The conditions under which [on_join] registers the connection: the
    payload has its fields read, the sanitized username has at least 2
    code units and is free in the (defaulted) room. *)
Definition join_accepted (w : world) (data u r : value) : Prop :=
  get_prop data (js "username") = Ok u
  ∧ get_prop data (js "room") = Ok r
  ∧ (2 ≤ length (sanitizeInput u))%nat
  ∧ username_free (sanitizeInput u) (or_general (sanitizeInput r)) (users w) = true.

(** The conditions under which [on_chat_message] gets past its checks up to
    the sanitized text: the connection is Joined as [user], it is not rate
    limited, and the payload has its [message] field read as [m]. *)
Definition chat_admitted (w : world) (socket_id : jsstring) (data : value)
    (user : User.t) (m : value) : Prop :=
  JsMap.get socket_id (users w) = Some user
  ∧ (length (recent (now_of w) (stored_of w socket_id)) < RATE_LIMIT_MAX)%nat
  ∧ get_prop data (js "message") = Ok m.

(** The message object [on_chat_message] builds for an accepted message;
    its timestamp is the third reading of the clock in the handler. *)
Definition sent_message (w : world) (socket_id : jsstring) (user : User.t) (m : value)
  : message :=
  UserMessage (User.username user) (sanitizeInput m) (clock w (S (S (ticks w))))
    (User.room user) socket_id.

(** What was emitted between a state [w] and a later state [w']. *)
Definition emitted (w w' : world) : list emission :=
  drop (length (outbox w)) (outbox w').

(** The messages that a stretch of the outbox broadcasts to [room] as
    [received_message], in order. *)
Definition broadcast_to (room : jsstring) (e : emission) : option message :=
  match em_to e, em_payload e with
  | ToRoom r, PMessage m =>
      if String.eqb (em_event e) "received_message" && bool_decide (r = room)
      then Some m else None
  | _, _ => None
  end.

Definition broadcasts (room : jsstring) (o : list emission) : list message :=
  omap (broadcast_to room) o.

(** The second-join property read for every accepted join of a Joined
    connection, whatever the target room: the entry is overwritten, the
    new channel joined, no channel left, no [user_left] emitted and no
    [users_list] sent to the previous room, the history store untouched and
    the entries of the other connections kept. *)
Definition second_join_as_stated : Prop :=
  ∀ (w : world) (socket_id : jsstring) (data u r : value) (previous : User.t),
    reachable w →
    JsMap.get socket_id (users w) = Some previous →
    join_accepted w data u r →
    let username := sanitizeInput u in
    let room := or_general (sanitizeInput r) in
    ∃ w',
      on_join socket_id data w = (w', Ok ())
      ∧ users w' = JsMap.set socket_id (User.Make username room socket_id) (users w)
      ∧ (socket_id, room) ∈ channels w'
      ∧ (∀ c, c ∈ channels w → c ∈ channels w')
      ∧ (∀ e, e ∈ emitted w w' →
           em_event e ≠ "user_left"%string
           ∧ ¬ (em_to e = ToRoom (User.room previous) ∧ em_event e = "users_list"%string))
      ∧ messageHistory w' = messageHistory w
      ∧ ∀ s, s ≠ socket_id → JsMap.get s (users w') = JsMap.get s (users w).

(** The round trip read for every later join, however many messages the
    room received in between. *)
Definition round_trip_as_stated : Prop :=
  ∀ (w : world) (sender : jsstring) (data : value) (user : User.t) (m : value)
    (w1 : world) (es : list event) (w2 : world) (joiner : jsstring) (jdata ju jr : value),
    reachable w →
    chat_admitted w sender data user m →
    sanitizeInput m ≠ [] →
    on_chat_message sender data w = (w1, Ok ()) →
    run es w1 = (w2, Ok ()) →
    join_accepted w2 jdata ju jr →
    or_general (sanitizeInput jr) = User.room user →
    ∃ w3 history,
      on_join joiner jdata w2 = (w3, Ok ())
      ∧ Emit (ToSocket joiner) "message_history" (PHistory history) ∈ emitted w2 w3
      ∧ sent_message w sender user m ∈ history.

(** *** Scenarios *)

(** Payloads as a client builds them. *)
Definition join_data (username room : string) : value :=
  VObject [(js "username", VString (js username)); (js "room", VString (js room))].
Definition message_data (text : string) : value :=
  VObject [(js "message", VString (js text))].
Definition room_data (room : string) : value :=
  VObject [(js "room", VString (js room))].

(** A clock that starts at 1,000,000 and advances by [step] ms at each
    reading. *)
Definition ticking (step : Z) : nat → Z := λ n, (Z.of_nat n * step + 1000000)%Z.

(** A wall clock that is set back: it advances by 1 ms at each reading,
    except that its reading number 18 comes 10 s late, after which the
    clock is set back by those 10 s. *)
Definition set_back : nat → Z :=
  λ n, if (n =? 18)%nat then 1010018%Z else ticking 1 n.

(** The attempts admitted for s1 in nineteen attempts under that clock. *)
Definition log_set_back : list (Z * Z) :=
  match (attempts (replicate 19 (js "s1")) (init set_back)).2 with
  | Ok log => admitted (js "s1") log
  | Throw => []
  end.

(** One connection joined: alice in room tech, on socket s1. *)
Definition alice_tech : User.t := User.Make (js "alice") (js "tech") (js "s1").

Definition w_alice : world :=
  (run [Join (js "s1") (join_data "alice" "tech")] (init (ticking 1))).1.

(** alice joins tech and sends a message; then she sends another one. *)
Definition chat_scenario : list event :=
  [Join (js "s1") (join_data "alice" "tech");
   ChatMessage (js "s1") (message_data "<script>")].

Definition w_chat : world := (run chat_scenario (init (ticking 1))).1.

Definition once_more : list event := [ChatMessage (js "s1") (message_data "again")].

Definition w_again : world := (run once_more w_chat).1.

(** Two connections pick the name alice in different rooms, then the
    second one moves into the room of the first. *)
Definition collocation_scenario : list event :=
  [Join (js "s1") (join_data "alice" "tech");
   Join (js "s2") (join_data "alice" "gaming");
   ChangeRoom (js "s2") (room_data "tech")].

Definition w_collocated : world := (run collocation_scenario (init (ticking 1))).1.

(** alice, alone in tech, sends one message and then a hundred more, one
    every six seconds; bob joins tech afterwards. *)
Definition w_slow : world :=
  (run [Join (js "s1") (join_data "alice" "tech")] (init (ticking 2000))).1.

Definition w_first : world := (on_chat_message (js "s1") (message_data "first") w_slow).1.

Definition hundred_more : list event :=
  replicate 100 (ChatMessage (js "s1") (message_data "later")).

Definition w_hundred : world := (run hundred_more w_first).1.

(** *** Further notions *)

(** The markup characters [sanitizeInput] replaces (less-than,
    greater-than, double quote, apostrophe, slash) and, with the
    ampersand, all the characters it replaces. *)
Definition is_markup (c : N) : bool :=
  (c =? 60) || (c =? 62) || (c =? 34) || (c =? 39) || (c =? 47).

Definition is_replaced (c : N) : bool := (c =? 38) || is_markup c.

(** The socket an event arrives on. *)
Definition event_socket (e : event) : jsstring :=
  match e with
  | Join s _ | ChatMessage s _ | PrivateMessageEv s _ | Typing s _ | ChangeRoom s _
  | Disconnect s | GetUsers s | GetRooms s => s
  end.

(** A limiter that holds one old timestamp for s1. *)
Definition w_stale : world :=
  World [] ∅ {[js "s1" := [0%Z]]} [] [] (ticking 1) 0.

(** The events whose handler first looks the connection up in [users]. *)
Definition needs_session (e : event) : bool :=
  match e with
  | ChatMessage _ _ | PrivateMessageEv _ _ | Typing _ _ | ChangeRoom _ _ | GetUsers _ => true
  | _ => false
  end.

(** The error emitted to a socket. *)
Definition error_to (socket_id : jsstring) (text : string) : emission :=
  Emit (ToSocket socket_id) "error" (PError (js text)).

(** bob joins tech on s2 and sends ten messages within a few
    milliseconds. *)
Definition bob_tech : User.t := User.Make (js "bob") (js "tech") (js "s2").

Definition w_ten : world :=
  (run (Join (js "s2") (join_data "bob" "tech")
          :: replicate 10 (ChatMessage (js "s2") (message_data "hello")))
     (init (ticking 1))).1.

(** The events whose handler only answers: typing, get_users, get_rooms. *)
Definition answers_only (e : event) : bool :=
  match e with
  | Typing _ _ | GetUsers _ | GetRooms _ => true
  | _ => false
  end.

(** A payload without fields to read: nothing at all, or [null]. *)
Definition no_payload (data : value) : Prop := data = VUndefined ∨ data = VNull.

(** Text without markup characters. *)
Definition markup_free (text : jsstring) : Prop := Forall (λ c, is_markup c = false) text.

(** A registry entry as the handlers leave it under the key [socket_id]:
    it carries its own key, a username of 2 to 500 code units and a room
    name of 1 to 500 code units, both without markup characters. *)
Definition entry_ok (socket_id : jsstring) (user : User.t) : Prop :=
  User.socketId user = socket_id
  ∧ (2 ≤ length (User.username user) ≤ 500)%nat
  ∧ (1 ≤ length (User.room user) ≤ 500)%nat
  ∧ markup_free (User.username user)
  ∧ markup_free (User.room user).

(** A message as the history buffer of [room] holds it: of type user,
    filed under its own room, with a text of 1 to 500 code units without
    markup characters. *)
Definition stored_ok (room : jsstring) (msg : message) : Prop :=
  ∃ username text timestamp socketId,
    msg = UserMessage username text timestamp room socketId
    ∧ (1 ≤ length text ≤ 500)%nat
    ∧ markup_free text.

(** The channel memberships after [socket.leave(oldRoom)] and
    [socket.join(newRoom)]. *)
Definition rejoin_channels (socket_id oldRoom newRoom : jsstring)
    (c : list (jsstring * jsstring)) : list (jsstring * jsstring) :=
  let left := filter (λ p, p ≠ (socket_id, oldRoom)) c in
  if decide ((socket_id, newRoom) ∈ left) then left else left ++ [(socket_id, newRoom)].

Definition join_channel (socket_id room : jsstring)
    (c : list (jsstring * jsstring)) : list (jsstring * jsstring) :=
  if decide ((socket_id, room) ∈ c) then c else c ++ [(socket_id, room)].

(** What the registry and the channels satisfy together: one entry per
    socket id, every entry well formed, and every registered socket in the
    channel of the room its entry names. *)
Definition registry_inv (w : world) : Prop :=
  NoDup (users w).*1
  ∧ ∀ k u, (k, u) ∈ users w → entry_ok k u ∧ (k, User.room u) ∈ channels w.

(** What the rate limiter satisfies: no stored window is longer than the
    maximum, and only registered connections have a window. *)
Definition limiter_inv (w : world) : Prop :=
  ∀ socketId stored,
    rateLimitMap w !! socketId = Some stored →
    (length stored ≤ RATE_LIMIT_MAX)%nat ∧ is_Some (JsMap.get socketId (users w)).

(** What the history store satisfies: no buffer is longer than 100, and
    every message is well formed for the room it is stored under. *)
Definition history_inv (w : world) : Prop :=
  ∀ room history,
    messageHistory w !! room = Some history →
    (length history ≤ 100)%nat ∧ Forall (stored_ok room) history.

(* ====================================================================== *)
(** * Properties *)
(* ====================================================================== *)

(** ** The input sanitizer *)

Example sanitize_script :
  sanitizeInput (VString (js "<script>")) = js "&lt;script&gt;".
Proof. reflexivity. Qed.

Example sanitize_trim :
  sanitizeInput (VString (js "  a/b  ")) = js "a&#x2F;b".
Proof. reflexivity. Qed.

Example sanitize_number : sanitizeInput (VNumber 42) = [].
Proof. reflexivity. Qed.

Example js_accent : js "é" = [233].
Proof. reflexivity. Qed.

Section Sanitizer.

Lemma replace_all_flat_map c b s :
  replace_all c b s = flat_map (λ x, if x =? c then b else [x]) s.
Proof.
  induction s as [|x s IH]; simpl; [done|].
  rewrite IH. by destruct (x =? c).
Qed.

Lemma flat_map_flat_map {A B C} (f : A → list B) (g : B → list C) l :
  flat_map g (flat_map f l) = flat_map (λ x, flat_map g (f x)) l.
Proof.
  induction l as [|x l IH]; simpl; [done|].
  by rewrite flat_map_app, IH.
Qed.

(** The six replacements in sequence rewrite a single character the way
    [char_reference] does: no replacement text contains a character that a
    later replacement looks for. *)
Lemma replacements_one (x : N) :
  replace_all 47 (js "&#x2F;")
    (replace_all 39 (js "&#x27;")
       (replace_all 34 (js "&quot;")
          (replace_all 62 (js "&gt;")
             (replace_all 60 (js "&lt;")
                (replace_all 38 (js "&amp;") [x])))))
  = char_reference x.
Proof.
  unfold char_reference.
  destruct (N.eqb_spec x 38) as [->|H1]; [reflexivity|].
  destruct (N.eqb_spec x 60) as [->|H2]; [reflexivity|].
  destruct (N.eqb_spec x 62) as [->|H3]; [reflexivity|].
  destruct (N.eqb_spec x 34) as [->|H4]; [reflexivity|].
  destruct (N.eqb_spec x 39) as [->|H5]; [reflexivity|].
  destruct (N.eqb_spec x 47) as [->|H6]; [reflexivity|].
  apply N.eqb_neq in H1, H2, H3, H4, H5, H6.
  cbn [replace_all]. rewrite H1. cbn [replace_all]. rewrite H2.
  cbn [replace_all]. rewrite H3. cbn [replace_all]. rewrite H4.
  cbn [replace_all]. rewrite H5. cbn [replace_all]. by rewrite H6.
Qed.

Lemma replace_all_app c b s1 s2 :
  replace_all c b (s1 ++ s2) = replace_all c b s1 ++ replace_all c b s2.
Proof.
  induction s1 as [|x s1 IH]; simpl; [done|].
  rewrite IH. destruct (x =? c); [by rewrite <- app_assoc | done].
Qed.

Lemma replacements_all (s : jsstring) :
  replace_all 47 (js "&#x2F;")
    (replace_all 39 (js "&#x27;")
       (replace_all 34 (js "&quot;")
          (replace_all 62 (js "&gt;")
             (replace_all 60 (js "&lt;")
                (replace_all 38 (js "&amp;") s)))))
  = flat_map char_reference s.
Proof.
  induction s as [|x s IH]; [reflexivity|].
  change (x :: s) with ([x] ++ s).
  rewrite !replace_all_app, IH, replacements_one. reflexivity.
Qed.

(** C4.  For every input value, [sanitizeInput] is the function the
    specification describes ([sanitize_spec]): the empty string on a value
    that is not a string, otherwise the input with each ampersand,
    less-than, greater-than, double quote, apostrophe and slash replaced by
    its character reference, then trimmed, then cut to 500 code
    units.  It is a total function into strings, and its result never
    exceeds 500 code units. *)
Theorem sanitizeInput_correct (text : value) :
  sanitizeInput text = sanitize_spec text
  ∧ (length (sanitizeInput text) ≤ 500)%nat.
Proof.
  destruct text; try (split; [reflexivity | simpl; lia]).
  unfold sanitizeInput, sanitize_spec, substring0.
  rewrite replacements_all. split; [reflexivity|].
  rewrite length_take. lia.
Qed.

End Sanitizer.

(** ** The room history store *)

Section History.

Lemma addMessageToHistory_eq room msg w :
  addMessageToHistory room msg w
  = (with_messageHistory <[room := push_capped (history_of w room) msg]> w, Ok ()).
Proof.
  unfold addMessageToHistory, history_of, push_capped, mbind, M_bind, gets, modify,
    mret, M_ret, with_messageHistory.
  destruct w as [us mh rl ch ob clk tk]; simpl.
  destruct (mh !! room) as [h|] eqn:E; simpl.
  - rewrite E. reflexivity.
  - rewrite lookup_insert_eq. simpl. by rewrite insert_insert_eq.
Qed.

Lemma length_last_n {A} n (l : list A) : length (last_n n l) = min n (length l).
Proof. unfold last_n. rewrite length_drop. lia. Qed.

Lemma push_capped_last_n (l : list message) (msg : message) :
  push_capped (last_n 100 l) msg = last_n 100 (l ++ [msg]).
Proof.
  unfold push_capped. rewrite length_last_n. unfold last_n.
  rewrite length_app. change (length [msg]) with 1%nat.
  case_bool_decide as Hlen.
  - rewrite drop_drop, drop_app_le by lia. f_equal. f_equal. lia.
  - rewrite drop_app_le by lia. f_equal. f_equal. lia.
Qed.

Lemma history_of_insert w room room' h :
  history_of (with_messageHistory <[room := h]> w) room'
  = if decide (room = room') then h else history_of w room'.
Proof.
  unfold history_of. simpl. rewrite lookup_insert.
  by destruct (decide (room = room')).
Qed.

Lemma appended_to_cons room r msg ops :
  appended_to room ((r, msg) :: ops)
  = if decide (r = room) then msg :: appended_to room ops else appended_to room ops.
Proof.
  unfold appended_to. rewrite filter_cons. simpl.
  by destruct (decide (r = room)).
Qed.

Lemma append_all_from ops : ∀ w room pre,
  history_of w room = last_n 100 pre →
  ∃ w', append_all ops w = (w', Ok ())
        ∧ history_of w' room = last_n 100 (pre ++ appended_to room ops).
Proof.
  induction ops as [|[r msg] ops IH]; intros w room pre Hpre.
  - exists w. split; [done|]. by rewrite app_nil_r.
  - cbn [append_all]. unfold mbind, M_bind. rewrite addMessageToHistory_eq.
    rewrite appended_to_cons.
    destruct (decide (r = room)) as [->|Hne].
    + destruct (IH (with_messageHistory <[room := push_capped (history_of w room) msg]> w)
                  room (pre ++ [msg])) as (w' & Hrun & Hh).
      { rewrite history_of_insert, decide_True by done.
        rewrite Hpre. apply push_capped_last_n. }
      exists w'. split; [done|]. by rewrite Hh, <- app_assoc.
    + destruct (IH (with_messageHistory <[r := push_capped (history_of w r) msg]> w)
                  room pre) as (w' & Hrun & Hh).
      { by rewrite history_of_insert, decide_False. }
      exists w'. by split.
Qed.

(** C2.  For every room and every sequence of appends made from the empty
    store, [getMessageHistory] returns the last [min 100 n] of the [n]
    messages appended to that room, in append order, hence never more than
    100; on a store without a buffer for the room (the initial one) it
    returns the empty sequence, not a missing value. *)
Theorem getMessageHistory_last_100 (clk : nat → Z) (ops : list (jsstring * message))
    (room : jsstring) :
  ∃ w h,
    append_all ops (init clk) = (w, Ok ())
    ∧ getMessageHistory room w = (w, Ok h)
    ∧ h = last_n 100 (appended_to room ops)
    ∧ length h = min 100 (length (appended_to room ops))
    ∧ (length h ≤ 100)%nat
    ∧ getMessageHistory room (init clk) = (init clk, Ok []).
Proof.
  destruct (append_all_from ops (init clk) room []) as (w & Hrun & Hh); [done|].
  exists w, (history_of w room). split; [done|]. split; [done|].
  rewrite Hh. simpl. rewrite length_last_n.
  split; [done|]. split; [done|]. split; [lia | done].
Qed.

End History.

(** ** The rate limiter *)

Section RateLimiter.

Lemma isRateLimited_eq socketId w :
  isRateLimited socketId w
  = (with_rateLimitMap <[socketId := recent (now_of w) (stored_of w socketId)]>
       (with_ticks S w),
     Ok (bool_decide (RATE_LIMIT_MAX ≤ length (recent (now_of w) (stored_of w socketId)))%nat)).
Proof. by destruct w. Qed.

Lemma addRateLimitTimestamp_eq socketId w :
  addRateLimitTimestamp socketId w
  = (with_rateLimitMap <[socketId := stored_of w socketId ++ [now_of w]]> (with_ticks S w),
     Ok ()).
Proof. by destruct w. Qed.

Lemma stored_of_insert w s x socketId :
  stored_of (with_rateLimitMap <[s := x]> w) socketId
  = if decide (s = socketId) then x else stored_of w socketId.
Proof.
  unfold stored_of. simpl. rewrite lookup_insert.
  by destruct (decide (s = socketId)).
Qed.

Lemma attempt_limited socketId w :
  (RATE_LIMIT_MAX ≤ length (recent (now_of w) (stored_of w socketId)))%nat →
  attempt socketId w
  = (with_rateLimitMap <[socketId := recent (now_of w) (stored_of w socketId)]>
       (with_ticks S w), Ok None).
Proof.
  intros H. unfold attempt, mbind, M_bind. unfold gets at 1. rewrite isRateLimited_eq.
  by rewrite bool_decide_eq_true_2.
Qed.

Lemma attempt_admitted socketId w :
  (length (recent (now_of w) (stored_of w socketId)) < RATE_LIMIT_MAX)%nat →
  attempt socketId w
  = (with_rateLimitMap
       <[socketId := recent (now_of w) (stored_of w socketId) ++ [clock w (S (ticks w))]]>
       (with_ticks S (with_ticks S w)),
     Ok (Some (now_of w, clock w (S (ticks w))))).
Proof.
  intros H. unfold attempt, mbind, M_bind. unfold gets at 1. rewrite isRateLimited_eq.
  rewrite bool_decide_eq_false_2 by lia.
  rewrite addRateLimitTimestamp_eq.
  unfold gets, mret, M_ret. rewrite !stored_of_insert, !decide_True by done.
  rewrite last_snoc. destruct w; unfold with_rateLimitMap, with_ticks, now_of; simpl.
  by rewrite insert_insert_eq.
Qed.

Lemma recent_filter now (θ : Z) (l : list Z) :
  recent now (filter (λ t, θ < t)%Z l)
  = filter (λ t, Z.max θ (now - RATE_LIMIT_WINDOW) < t)%Z l.
Proof.
  unfold recent. rewrite list_filter_filter.
  apply list_filter_iff. intros t. unfold RATE_LIMIT_WINDOW. lia.
Qed.

Lemma length_filter_impl {A} (P Q : A → Prop) `{!∀ x, Decision (P x)}
    `{!∀ x, Decision (Q x)} (l : list A) :
  (∀ x, x ∈ l → P x → Q x) → (length (filter P l) ≤ length (filter Q l))%nat.
Proof.
  induction l as [|x l IH]; intros HPQ; [done|].
  rewrite !filter_cons.
  assert (length (filter P l) ≤ length (filter Q l))%nat
    by (apply IH; intros y Hy; apply HPQ; by apply list_elem_of_further).
  destruct (decide (P x)) as [HP|HP]; destruct (decide (Q x)) as [HQ|HQ];
    simpl; try lia.
  exfalso. apply HQ, HPQ; [apply list_elem_of_here | done].
Qed.

Lemma length_filter_fmap {A B} (f : A → B) (P : B → Prop) `{!∀ y, Decision (P y)}
    (l : list A) :
  length (filter P (f <$> l)) = length (filter (λ x, P (f x)) l).
Proof.
  induction l as [|x l IH]; [done|].
  rewrite fmap_cons, !filter_cons. destruct (decide (P (f x))); simpl; lia.
Qed.

(** One attempt keeps the invariant of every connection, and extends the
    admitted attempts of its own connection when it is admitted. *)
Lemma attempt_inv socketId w (rec : jsstring → list (Z * Z)) :
  monotone (clock w) →
  (∀ s, window_inv w s (rec s)) →
  ∃ w' a,
    attempt socketId w = (w', Ok a)
    ∧ clock w' = clock w
    ∧ ∀ s, window_inv w' s
             (rec s ++ if decide (s = socketId) then option_list a else []).
Proof.
  intros Hmono Hinv.
  assert (Hc1 : (now_of w ≤ clock w (S (ticks w)))%Z) by apply Hmono.
  assert (Hc2 : (clock w (S (ticks w)) ≤ clock w (S (S (ticks w))))%Z) by apply Hmono.
  destruct (decide (RATE_LIMIT_MAX ≤ length (recent (now_of w) (stored_of w socketId)))%nat)
    as [Hlim|Hadm].
  - eexists _, None. split; [by apply attempt_limited|]. split; [done|].
    intros s. destruct (Hinv s) as (θ & Hθ & Hst & Hle & Hwin).
    destruct (decide (s = socketId)) as [->|Hne]; simpl; rewrite app_nil_r.
    + exists (Z.max θ (now_of w - RATE_LIMIT_WINDOW)).
      split; [unfold now_of in *; simpl; unfold RATE_LIMIT_WINDOW in *; lia|].
      split; [|done].
      rewrite stored_of_insert, decide_True by done.
      rewrite Hst. apply recent_filter.
    + exists θ. split; [unfold now_of in *; simpl; lia|]. split; [|done].
      by rewrite stored_of_insert, decide_False.
  - eexists _, (Some _). split; [apply attempt_admitted; lia|]. split; [done|].
    intros s. destruct (Hinv s) as (θ & Hθ & Hst & Hle & Hwin).
    destruct (decide (s = socketId)) as [->|Hne]; simpl.
    + exists (Z.max θ (now_of w - RATE_LIMIT_WINDOW)).
      split; [unfold now_of in *; simpl; unfold RATE_LIMIT_WINDOW in *; lia|].
      rewrite Hst, recent_filter, length_filter_fmap in Hadm.
      split; [|split].
      * rewrite stored_of_insert, decide_True by done.
        rewrite Hst, recent_filter, fmap_app, filter_app. cbn [fmap list_fmap snd].
        rewrite filter_cons, filter_nil, decide_True; [done|].
        unfold RATE_LIMIT_WINDOW in *. lia.
      * intros a Ha. apply elem_of_app in Ha as [Ha|Ha]; [by apply Hle|].
        apply list_elem_of_singleton in Ha as ->. exact Hc1.
      * intros t0. unfold checked_in_window, recorded_in_window.
        rewrite !filter_app, !filter_cons, !filter_nil, !length_app. cbn [fst snd].
        destruct (Hwin t0) as [Hchk Hrec].
        unfold checked_in_window, recorded_in_window in Hchk, Hrec.
        split.
        -- destruct (decide (t0 ≤ now_of w < t0 + RATE_LIMIT_WINDOW)%Z)
             as [Hin|Hout]; cbn [length]; [|lia].
           assert (length (filter (λ a, t0 ≤ a.1 < t0 + RATE_LIMIT_WINDOW)%Z (rec socketId))
                   ≤ length (filter (λ a, Z.max θ (now_of w - RATE_LIMIT_WINDOW) < a.2)%Z
                               (rec socketId)))%nat; [|lia].
           apply length_filter_impl. intros a Ha Hwa. specialize (Hle a Ha).
           unfold RATE_LIMIT_WINDOW in *. lia.
        -- destruct (decide (t0 ≤ clock w (S (ticks w)) < t0 + RATE_LIMIT_WINDOW)%Z)
             as [Hin|Hout]; cbn [length]; [|lia].
           assert (length (filter (λ a, t0 ≤ a.2 < t0 + RATE_LIMIT_WINDOW)%Z (rec socketId))
                   ≤ length (filter (λ a, Z.max θ (now_of w - RATE_LIMIT_WINDOW) < a.2)%Z
                               (rec socketId)))%nat; [|lia].
           apply length_filter_impl. intros a Ha Hwa.
           unfold RATE_LIMIT_WINDOW in *. lia.
    + rewrite app_nil_r. exists θ.
      split; [unfold now_of in *; simpl; lia|]. split; [|done].
      by rewrite stored_of_insert, decide_False.
Qed.

Lemma admitted_cons s t log socketId :
  admitted socketId ((s, t) :: log)
  = (if decide (socketId = s) then [t] else []) ++ admitted socketId log.
Proof.
  unfold admitted. rewrite filter_cons.
  repeat case_decide; simpl in *; try congruence; reflexivity.
Qed.

Lemma attempts_inv ids : ∀ w (rec : jsstring → list (Z * Z)),
  monotone (clock w) →
  (∀ s, window_inv w s (rec s)) →
  ∃ w' log,
    attempts ids w = (w', Ok log)
    ∧ ∀ s, window_inv w' s (rec s ++ admitted s log).
Proof.
  induction ids as [|socketId ids IH]; intros w rec Hmono Hinv.
  - exists w, []. split; [done|]. intros s. rewrite app_nil_r. apply Hinv.
  - destruct (attempt_inv socketId w rec Hmono Hinv) as (w1 & a & Ha & Hclk & Hinv1).
    destruct (IH w1 _ ltac:(by rewrite Hclk) Hinv1) as (w' & log & Hrun & Hinv').
    cbn [attempts]. unfold mbind, M_bind. rewrite Ha, Hrun.
    eexists _, _. split; [reflexivity|].
    intros s. specialize (Hinv' s). rewrite <- app_assoc in Hinv'.
    destruct a as [t|]; [rewrite admitted_cons|];
      destruct (decide (s = socketId)); simpl in *; done.
Qed.

(** C3.  With a clock that never runs backwards: [isRateLimited] answers
    true exactly when at least 10 of the stored timestamps are younger than
    10,000 ms at the time of the check, and always replaces the stored
    window of the connection by those younger timestamps, whether or not an
    attempt is recorded afterwards; and in every sequence of
    check-then-record steps started from the empty limiter, the admitted
    attempts of one connection never number more than 10 in a window of
    10,000 ms, whether an attempt is placed at the time of its check or at
    the timestamp recorded for it. *)
Theorem rate_limit_window (clk : nat → Z) (ids : list jsstring)
    (socketId : jsstring) (t0 : Z) :
  monotone clk →
  (∀ w s,
     let younger := filter (λ time, (now_of w - time < 10000)%Z) (stored_of w s) in
     ∃ w' limited,
       isRateLimited s w = (w', Ok limited)
       ∧ (limited = true ↔ (10 ≤ length younger)%nat)
       ∧ rateLimitMap w' = <[s := younger]> (rateLimitMap w)
       ∧ users w' = users w ∧ messageHistory w' = messageHistory w
       ∧ outbox w' = outbox w)
  ∧ ∃ w log,
      attempts ids (init clk) = (w, Ok log)
      ∧ (length (checked_in_window t0 (admitted socketId log)) ≤ 10)%nat
      ∧ (length (recorded_in_window t0 (admitted socketId log)) ≤ 10)%nat.
Proof.
  intros Hmono. split.
  - intros w s younger. eexists _, _. split; [apply isRateLimited_eq|].
    split; [apply bool_decide_eq_true|]. by repeat split.
  - destruct (attempts_inv ids (init clk) (λ _, []) Hmono) as (w & log & Hrun & Hinv).
    { intros s. exists (clk 0%nat - RATE_LIMIT_WINDOW)%Z.
      split; [unfold now_of; simpl; lia|].
      split; [reflexivity|].
      split; [intros a Ha; by apply not_elem_of_nil in Ha|].
      intros; simpl; unfold RATE_LIMIT_MAX; lia. }
    exists w, log. split; [done|].
    destruct (Hinv socketId) as (θ & _ & _ & _ & Hwin). apply (Hwin t0).
Qed.

Lemma ticking_monotone (step : Z) : (0 ≤ step)%Z → monotone (ticking step).
Proof. intros Hstep n. unfold ticking. nia. Qed.

Lemma rate_limit_window_witness :
  monotone (ticking 1)
  ∧ (∀ w s,
       let younger := filter (λ time, (now_of w - time < 10000)%Z) (stored_of w s) in
       ∃ w' limited,
         isRateLimited s w = (w', Ok limited)
         ∧ (limited = true ↔ (10 ≤ length younger)%nat)
         ∧ rateLimitMap w' = <[s := younger]> (rateLimitMap w)
         ∧ users w' = users w ∧ messageHistory w' = messageHistory w
         ∧ outbox w' = outbox w)
  ∧ ∃ w log,
      attempts (replicate 12 (js "s1")) (init (ticking 1)) = (w, Ok log)
      ∧ (length (checked_in_window 1000000 (admitted (js "s1") log)) ≤ 10)%nat
      ∧ (length (recorded_in_window 1000000 (admitted (js "s1") log)) ≤ 10)%nat.
Proof.
  split; [intros n; unfold ticking; lia|].
  apply (rate_limit_window (ticking 1) (replicate 12 (js "s1")) (js "s1") 1000000).
  intros n. unfold ticking. lia.
Defined.

(** Twelve attempts one millisecond apart: ten are admitted. *)
Example twelve_attempts :
  match (attempts (replicate 12 (js "s1")) (init (ticking 1))).2 with
  | Ok log => length log
  | Throw => 0%nat
  end = 10%nat.
Proof. vm_compute. reflexivity. Qed.

(** Those ten all lie in the window that starts with the first reading of
    the clock, by check time and by recorded time: the bound is reached,
    and the two attempts that follow are the ones refused. *)
Example twelve_attempts_fill_the_window :
  match (attempts (replicate 12 (js "s1")) (init (ticking 1))).2 with
  | Ok log =>
      (length (checked_in_window 1000000 (admitted (js "s1") log)),
       length (recorded_in_window 1000000 (admitted (js "s1") log)),
       last log)
  | Throw => (0, 0, None)%nat
  end = (10, 10, Some (js "s1", (1000018, 1000019)%Z))%nat.
Proof. vm_compute. reflexivity. Qed.

(** Under the clock that is set back, all nineteen attempts are admitted:
    nine, then the one whose check sees the late reading and finds the
    window empty, then nine more against a window that holds only that
    one. *)
Lemma log_set_back_counts :
  length log_set_back = 19%nat
  ∧ length (checked_in_window 1000000 log_set_back) = 18%nat
  ∧ length (recorded_in_window 1000000 log_set_back) = 19%nat.
Proof. vm_compute. done. Qed.

(** C3, read for every clock, fails when the clock is set back: the
    readings of [set_back] advance by 1 ms, but the check of the tenth
    attempt reads a time 10 s late, so that [isRateLimited] drops the nine
    stored timestamps, and the clock is set back before the attempt is
    recorded.  Nine more attempts are then admitted, and the window of
    10,000 ms that starts at the first reading holds 18 admitted attempts
    by the time of their check and 19 by their recorded timestamp. *)
Lemma clock_set_back_counterexample :
  ¬ rate_limit_as_stated checked_in_window
  ∧ ¬ rate_limit_as_stated recorded_in_window.
Proof.
  destruct log_set_back_counts as (_ & Hchecked & Hrecorded).
  split; intros H;
    destruct (H set_back (replicate 19 (js "s1")) (js "s1") 1000000%Z)
      as (w & log & Hrun & Hlen);
    assert (Hlog : admitted (js "s1") log = log_set_back)
      by (unfold log_set_back; by rewrite Hrun);
    rewrite Hlog in Hlen; lia.
Qed.

End RateLimiter.

(** ** The presence registry *)

Section Registry.

Context {V : Type}.
Implicit Types (m : list (jsstring * V)) (k : jsstring).

Lemma get_set_eq k (v : V) m : JsMap.get k (JsMap.set k v m) = Some v.
Proof.
  induction m as [|[k' v'] m IH]; simpl.
  - by rewrite decide_True.
  - destruct (decide (k' = k)) as [->|Hne]; simpl.
    + by rewrite decide_True.
    + by rewrite decide_False.
Qed.

Lemma get_set_ne k k' (v : V) m :
  k ≠ k' → JsMap.get k' (JsMap.set k v m) = JsMap.get k' m.
Proof.
  intros Hne. induction m as [|[k0 v0] m IH]; simpl.
  - by rewrite decide_False.
  - destruct (decide (k0 = k)) as [->|Hne0]; simpl.
    + by rewrite !decide_False.
    + by rewrite IH.
Qed.

Lemma get_delete_eq k m : JsMap.get k (JsMap.delete k m) = None.
Proof.
  induction m as [|[k' v'] m IH]; simpl; [done|].
  destruct (decide (k' = k)) as [->|Hne]; simpl; [done|].
  by rewrite decide_False.
Qed.

Lemma get_delete_ne k k' m :
  k ≠ k' → JsMap.get k' (JsMap.delete k m) = JsMap.get k' m.
Proof.
  intros Hne. induction m as [|[k0 v0] m IH]; simpl; [done|].
  destruct (decide (k0 = k)) as [->|Hne0]; simpl.
  - by rewrite decide_False.
  - by rewrite IH.
Qed.

Lemma get_Some_elem k (v : V) m : JsMap.get k m = Some v → (k, v) ∈ m.
Proof.
  induction m as [|[k' v'] m IH]; simpl; [done|].
  destruct (decide (k' = k)) as [->|Hne]; intros H.
  - injection H as ->. apply list_elem_of_here.
  - apply list_elem_of_further. auto.
Qed.

Lemma get_None_elem k (v : V) m : JsMap.get k m = None → (k, v) ∉ m.
Proof.
  induction m as [|[k' v'] m IH]; simpl; intros H Hin.
  - by apply not_elem_of_nil in Hin.
  - destruct (decide (k' = k)) as [->|Hne]; [done|].
    apply elem_of_cons in Hin as [Heq|Hin]; [congruence | by apply IH].
Qed.

End Registry.

Section Presence.

Implicit Types (entries : list (jsstring * User.t)).

Lemma users_in_room_elem room name socketId entries :
  (name, socketId) ∈ users_in_room room entries
  ↔ ∃ user, (socketId, user) ∈ entries
            ∧ User.room user = room ∧ User.username user = name.
Proof.
  induction entries as [|[s u] entries IH]; simpl.
  - split; [intros H; by apply not_elem_of_nil in H|].
    intros (? & H & _). by apply not_elem_of_nil in H.
  - destruct (decide (User.room u = room)) as [Hr|Hr].
    + rewrite elem_of_cons, IH. split.
      * intros [Heq|(user & Hin & ? & ?)].
        -- injection Heq as -> ->. exists u. split; [apply list_elem_of_here | done].
        -- exists user. split; [by apply list_elem_of_further | done].
      * intros (user & Hin & Hroom & Hname).
        apply elem_of_cons in Hin as [Heq|Hin].
        -- injection Heq as -> ->. left. by rewrite Hname.
        -- right. by exists user.
    + rewrite IH. split.
      * intros (user & Hin & ? & ?). exists user.
        split; [by apply list_elem_of_further | done].
      * intros (user & Hin & Hroom & Hname).
        apply elem_of_cons in Hin as [Heq|Hin].
        -- injection Heq as -> ->. done.
        -- by exists user.
Qed.

Lemma username_free_false username room entries :
  username_free username room entries = false
  ↔ ∃ socketId, (username, socketId) ∈ users_in_room room entries.
Proof.
  induction entries as [|[s u] entries IH]; simpl.
  - split; [done|]. intros [? H]. by apply not_elem_of_nil in H.
  - destruct (decide (User.room u = room)) as [Hr|Hr].
    + rewrite (bool_decide_eq_true_2 _ Hr), andb_true_r.
      case_bool_decide as Hn.
      * split; [|done]. intros _. exists s. rewrite Hn. apply list_elem_of_here.
      * rewrite IH. split; intros [s' Hin]; exists s'.
        -- by apply list_elem_of_further.
        -- apply elem_of_cons in Hin as [Heq|Hin]; [congruence | done].
    + rewrite (bool_decide_eq_false_2 _ Hr), andb_false_r. apply IH.
Qed.

Lemma usernames_in_cons room s u entries :
  usernames_in room ((s, u) :: entries)
  = if decide (User.room u = room)
    then User.username u :: usernames_in room entries
    else usernames_in room entries.
Proof. unfold usernames_in. cbn [users_in_room]. by destruct (decide _). Qed.

Lemma username_free_true username room entries :
  username_free username room entries = true ↔ username ∉ usernames_in room entries.
Proof.
  induction entries as [|[s u] entries IH].
  - split; [intros _ H; by apply not_elem_of_nil in H | done].
  - rewrite usernames_in_cons. cbn [username_free].
    destruct (decide (User.room u = room)) as [Hr|Hr].
    + rewrite (bool_decide_eq_true_2 _ Hr), andb_true_r, not_elem_of_cons.
      case_bool_decide as Hn; [naive_solver | rewrite IH; naive_solver].
    + by rewrite (bool_decide_eq_false_2 _ Hr), andb_false_r.
Qed.

Lemma unique_usernames_tail s u entries :
  unique_usernames ((s, u) :: entries) → unique_usernames entries.
Proof.
  intros H room. specialize (H room). rewrite usernames_in_cons in H.
  destruct (decide _); [by apply NoDup_cons in H as [_ H] | done].
Qed.

Lemma usernames_in_set_elem x room socketId u entries :
  x ∈ usernames_in room (JsMap.set socketId u entries) →
  x ∈ usernames_in room entries ∨ (User.room u = room ∧ x = User.username u).
Proof.
  induction entries as [|[s v] entries IH]; cbn [JsMap.set].
  - rewrite usernames_in_cons. destruct (decide _); [|by left].
    intros H. apply list_elem_of_singleton in H. by right.
  - destruct (decide (s = socketId)) as [->|Hne]; rewrite !usernames_in_cons.
    + destruct (decide (User.room u = room)), (decide (User.room v = room));
        rewrite ?elem_of_cons; naive_solver.
    + destruct (decide (User.room v = room)); rewrite ?elem_of_cons; naive_solver.
Qed.

Lemma usernames_in_delete_elem x room socketId entries :
  x ∈ usernames_in room (JsMap.delete socketId entries) →
  x ∈ usernames_in room entries.
Proof.
  induction entries as [|[s v] entries IH]; cbn [JsMap.delete]; [done|].
  destruct (decide (s = socketId)) as [->|Hne]; rewrite !usernames_in_cons;
    destruct (decide (User.room v = room)); rewrite ?elem_of_cons; naive_solver.
Qed.

(** Registering a name that [isUsernameAvailable] found free keeps the
    names of every room distinct, also when the connection had an entry. *)
Lemma unique_usernames_set socketId username room entries :
  unique_usernames entries →
  username_free username room entries = true →
  unique_usernames (JsMap.set socketId (User.Make username room socketId) entries).
Proof.
  induction entries as [|[s v] entries IH]; intros Huniq Hfree room'; cbn [JsMap.set].
  - rewrite usernames_in_cons. destruct (decide _); [|apply NoDup_nil_2].
    apply NoDup_singleton.
  - pose proof (unique_usernames_tail _ _ _ Huniq) as Htail.
    pose proof (Huniq room') as Hroom'. rewrite usernames_in_cons in Hroom'.
    assert (Hfree' : username_free username room entries = true).
    { cbn [username_free] in Hfree. by destruct (_ && _). }
    destruct (decide (s = socketId)) as [->|Hne]; rewrite usernames_in_cons;
      cbn [User.room User.username].
    + destruct (decide (room = room')) as [<-|Hr].
      * apply NoDup_cons. split; [by apply username_free_true | apply Htail].
      * apply Htail.
    + destruct (decide (User.room v = room')) as [Hv|Hv]; [|by apply IH].
      apply NoDup_cons in Hroom' as [Hnotin _].
      apply NoDup_cons. split; [|by apply IH].
      intros Hin. apply usernames_in_set_elem in Hin as [Hin|[Hr Hname]]; [done|].
      cbn [User.room User.username] in Hr, Hname. rewrite <- Hr in Hv.
      cbn [username_free] in Hfree.
      rewrite (bool_decide_eq_true_2 _ Hname) in Hfree.
      rewrite (bool_decide_eq_true_2 _ Hv) in Hfree. done.
Qed.

Lemma unique_usernames_delete socketId entries :
  unique_usernames entries → unique_usernames (JsMap.delete socketId entries).
Proof.
  induction entries as [|[s v] entries IH]; intros Huniq room; cbn [JsMap.delete];
    [apply NoDup_nil_2|].
  pose proof (unique_usernames_tail _ _ _ Huniq) as Htail.
  destruct (decide (s = socketId)) as [->|Hne]; [by apply IH|].
  specialize (Huniq room). rewrite usernames_in_cons in *.
  destruct (decide (User.room v = room)); [|by apply IH].
  apply NoDup_cons in Huniq as [Hnotin _].
  apply NoDup_cons. split; [|by apply IH].
  intros Hin. by apply usernames_in_delete_elem in Hin.
Qed.

End Presence.

(** ** The handlers *)

Ltac mred :=
  repeat (progress (unfold mbind, M_bind, mret, M_ret, gets, modify, emit, throw,
                      try_catch, lift_result, getMessageHistory, getUsersInRoom,
                      isUsernameAvailable, socket_join, socket_leave, Date_now);
                    cbn beta iota zeta).

Ltac wproj :=
  cbn [users messageHistory rateLimitMap channels outbox clock ticks
       with_users with_messageHistory with_rateLimitMap with_channels with_outbox
       with_ticks fst snd negb now_of].

Section Handlers.

(** C6.  A join whose sanitized username is shorter than 2, or is already
    taken in the (defaulted) target room, emits exactly one [error] event,
    addressed to the requesting socket alone, and changes nothing else:
    the presence registry is as before, so that a connection without an
    entry (Unjoined) still has none, and so are the history store, the
    rate-limit windows and the channel memberships. *)
Theorem join_rejected (w : world) (socket_id : jsstring) (data u r : value) :
  get_prop data (js "username") = Ok u →
  get_prop data (js "room") = Ok r →
  (length (sanitizeInput u) < 2)%nat
  ∨ username_free (sanitizeInput u) (or_general (sanitizeInput r)) (users w) = false →
  ∃ text w',
    on_join socket_id data w = (w', Ok ())
    ∧ outbox w' = outbox w ++ [Emit (ToSocket socket_id) "error" (PError text)]
    ∧ users w' = users w
    ∧ (JsMap.get socket_id (users w) = None → JsMap.get socket_id (users w') = None)
    ∧ messageHistory w' = messageHistory w
    ∧ rateLimitMap w' = rateLimitMap w
    ∧ channels w' = channels w.
Proof.
  intros Hu Hr Hrej.
  unfold on_join, try_catch, mbind, M_bind. rewrite Hu, Hr. mred.
  destruct (falsy (sanitizeInput u) || (length (sanitizeInput u) <? 2)%nat) eqn:Hshort.
  - eexists _, _. split; [reflexivity|]. by repeat split.
  - apply orb_false_iff in Hshort as [_ Hlen]. apply Nat.ltb_ge in Hlen.
    destruct Hrej as [Hlt|Htaken]; [lia|].
    rewrite Htaken. cbn [negb]. eexists _, _. split; [reflexivity|]. by repeat split.
Qed.

Lemma join_rejected_witness :
  ∃ text w',
    on_join (js "s2") (join_data "alice" "tech") w_alice = (w', Ok ())
    ∧ outbox w' = outbox w_alice ++ [Emit (ToSocket (js "s2")) "error" (PError text)]
    ∧ users w' = users w_alice
    ∧ (JsMap.get (js "s2") (users w_alice) = None → JsMap.get (js "s2") (users w') = None)
    ∧ messageHistory w' = messageHistory w_alice
    ∧ rateLimitMap w' = rateLimitMap w_alice
    ∧ channels w' = channels w_alice.
Proof.
  apply (join_rejected w_alice (js "s2") (join_data "alice" "tech")
           (VString (js "alice")) (VString (js "tech")));
    [reflexivity | reflexivity | right; reflexivity].
Defined.

(** C5.  For a Joined connection that is not rate limited, a chat_message
    whose text sanitizes to the empty string is dropped in silence: the
    handler returns normally, emits nothing (no error, no broadcast),
    appends nothing to any history and records no attempt; the only change
    to the shared state is that the connection's stored window is replaced
    by its timestamps younger than the window (the compaction done by the
    check). *)
Theorem empty_chat_message_dropped (w : world) (socket_id : jsstring) (data : value)
    (user : User.t) (m : value) :
  chat_admitted w socket_id data user m →
  sanitizeInput m = [] →
  ∃ w',
    on_chat_message socket_id data w = (w', Ok ())
    ∧ outbox w' = outbox w
    ∧ messageHistory w' = messageHistory w
    ∧ users w' = users w
    ∧ channels w' = channels w
    ∧ rateLimitMap w'
      = <[socket_id := recent (now_of w) (stored_of w socket_id)]> (rateLimitMap w).
Proof.
  intros (Huser & Hlim & Hm) Hempty.
  unfold on_chat_message, try_catch, mbind, M_bind.
  unfold gets at 1. rewrite Huser, isRateLimited_eq.
  rewrite bool_decide_eq_false_2 by lia.
  rewrite Hm. mred. rewrite Hempty. cbn [falsy bool_decide decide_rel orb length Nat.eqb].
  eexists. split; [reflexivity|]. by repeat split.
Qed.

Lemma empty_chat_message_dropped_witness :
  ∃ w',
    on_chat_message (js "s1") (message_data "   ") w_alice = (w', Ok ())
    ∧ outbox w' = outbox w_alice
    ∧ messageHistory w' = messageHistory w_alice
    ∧ users w' = users w_alice
    ∧ channels w' = channels w_alice
    ∧ rateLimitMap w'
      = <[js "s1" := recent (now_of w_alice) (stored_of w_alice (js "s1"))]>
          (rateLimitMap w_alice).
Proof.
  apply (empty_chat_message_dropped w_alice (js "s1") (message_data "   ")
           (User.Make (js "alice") (js "tech") (js "s1")) (VString (js "   ")));
    [split; [reflexivity | split; [vm_compute; lia | reflexivity]] | reflexivity].
Defined.

Lemma on_disconnect_absent (w : world) (socket_id : jsstring) :
  JsMap.get socket_id (users w) = None →
  on_disconnect socket_id w = (with_rateLimitMap (delete socket_id) w, Ok ()).
Proof.
  intros Hnone. unfold on_disconnect, mbind, M_bind. unfold gets at 1.
  by rewrite Hnone.
Qed.

Lemma on_disconnect_present (w : world) (socket_id : jsstring) (user : User.t) :
  JsMap.get socket_id (users w) = Some user →
  ∃ w1,
    on_disconnect socket_id w = (w1, Ok ())
    ∧ users w1 = JsMap.delete socket_id (users w)
    ∧ rateLimitMap w1 = delete socket_id (rateLimitMap w)
    ∧ messageHistory w1 = messageHistory w
    ∧ channels w1 = channels w
    ∧ outbox w1
      = outbox w
        ++ [Emit (ToRoom (User.room user)) "user_left"
              (PMessage (SystemMessage (User.username user ++ js " a quitté le chat")
                           (now_of w) (User.room user)));
            Emit (ToRoom (User.room user)) "users_list"
              (PUsersList (users_in_room (User.room user)
                             (JsMap.delete socket_id (users w))))].
Proof.
  intros Hsome. unfold on_disconnect, mbind, M_bind. unfold gets at 1.
  rewrite Hsome. mred. eexists. split; [reflexivity|]. wproj.
  repeat split. by rewrite <- app_assoc.
Qed.

(** C7.  For every connection and state, [disconnect] returns normally and
    leaves no entry for the connection: none in the presence registry, so
    the connection is in no room's user list, and none in the rate
    limiter; a second [disconnect] of the same connection then changes
    nothing at all (no state change, nothing emitted). *)
Theorem disconnect_cleanup (w : world) (socket_id : jsstring) :
  ∃ w1,
    on_disconnect socket_id w = (w1, Ok ())
    ∧ JsMap.get socket_id (users w1) = None
    ∧ (∀ room name, (name, socket_id) ∉ users_in_room room (users w1))
    ∧ rateLimitMap w1 !! socket_id = None
    ∧ on_disconnect socket_id w1 = (w1, Ok ()).
Proof.
  assert (Hlist : ∀ entries : list (jsstring * User.t),
             JsMap.get socket_id entries = None →
             ∀ room name, (name, socket_id) ∉ users_in_room room entries).
  { intros entries Hnone room name Hin.
    apply users_in_room_elem in Hin as (user & Hin & _).
    by apply (get_None_elem _ user) in Hnone. }
  assert (Hagain : ∀ w1, JsMap.get socket_id (users w1) = None →
                         rateLimitMap w1 !! socket_id = None →
                         on_disconnect socket_id w1 = (w1, Ok ())).
  { intros w1 Hnone Hrate. rewrite on_disconnect_absent by done.
    destruct w1. unfold with_rateLimitMap. wproj. cbn [rateLimitMap] in Hrate. by rewrite delete_id. }
  destruct (JsMap.get socket_id (users w)) as [user|] eqn:Huser.
  - destruct (on_disconnect_present w socket_id user Huser)
      as (w1 & Hrun & Hus & Hrl & _).
    assert (JsMap.get socket_id (users w1) = None) by (rewrite Hus; apply get_delete_eq).
    assert (rateLimitMap w1 !! socket_id = None) by (rewrite Hrl; apply lookup_delete_eq).
    exists w1. auto 10.
  - exists (with_rateLimitMap (delete socket_id) w).
    assert (rateLimitMap (with_rateLimitMap (delete socket_id) w) !! socket_id = None)
      by apply lookup_delete_eq.
    split; [by apply on_disconnect_absent|]. auto 10.
Qed.

Lemma on_join_accepted (w : world) (socket_id : jsstring) (data u r : value) :
  join_accepted w data u r →
  let username := sanitizeInput u in
  let room := or_general (sanitizeInput r) in
  let entries := JsMap.set socket_id (User.Make username room socket_id) (users w) in
  ∃ w',
    on_join socket_id data w = (w', Ok ())
    ∧ users w' = entries
    ∧ channels w'
      = (if decide ((socket_id, room) ∈ channels w) then channels w
         else channels w ++ [(socket_id, room)])
    ∧ messageHistory w' = messageHistory w
    ∧ rateLimitMap w' = rateLimitMap w
    ∧ clock w' = clock w
    ∧ outbox w'
      = outbox w
        ++ [Emit (ToSocket socket_id) "message_history" (PHistory (history_of w room));
            Emit (ToRoom room) "user_joined"
              (PMessage (SystemMessage (username ++ js " a rejoint le chat") (now_of w) room));
            Emit (ToRoom room) "users_list" (PUsersList (users_in_room room entries));
            Emit (ToSocket socket_id) "join_success"
              (PJoinSuccess username room (length (users_in_room room entries)))].
Proof.
  intros (Hu & Hr & Hlen & Hfree) username room entries.
  unfold on_join, try_catch, mbind, M_bind. rewrite Hu, Hr. mred.
  fold username room.
  replace (falsy username || (length username <? 2)%nat) with false; cycle 1.
  { symmetry. apply orb_false_iff. split.
    - apply bool_decide_eq_false_2. intros Heq. subst username. rewrite Heq in Hlen.
      simpl in Hlen. lia.
    - apply Nat.ltb_ge. exact Hlen. }
  subst username room. rewrite Hfree. cbn [negb].
  eexists. split; [reflexivity|]. wproj.
  repeat split. by rewrite <- !app_assoc.
Qed.

Lemma on_chat_message_accepted (w : world) (socket_id : jsstring) (data : value)
    (user : User.t) (m : value) :
  chat_admitted w socket_id data user m →
  sanitizeInput m ≠ [] →
  let msg := UserMessage (User.username user) (sanitizeInput m) (clock w (S (S (ticks w))))
               (User.room user) socket_id in
  ∃ w',
    on_chat_message socket_id data w = (w', Ok ())
    ∧ users w' = users w
    ∧ channels w' = channels w
    ∧ clock w' = clock w
    ∧ messageHistory w'
      = <[User.room user := push_capped (history_of w (User.room user)) msg]>
          (messageHistory w)
    ∧ rateLimitMap w'
      = <[socket_id := recent (now_of w) (stored_of w socket_id) ++ [clock w (S (ticks w))]]>
          (rateLimitMap w)
    ∧ outbox w'
      = outbox w ++ [Emit (ToRoom (User.room user)) "received_message" (PMessage msg)].
Proof.
  intros (Huser & Hlim & Hm) Hne msg.
  unfold on_chat_message, try_catch, mbind, M_bind.
  unfold gets at 1. rewrite Huser, isRateLimited_eq.
  rewrite bool_decide_eq_false_2 by lia.
  rewrite Hm. mred.
  replace (falsy (sanitizeInput m) || (length (sanitizeInput m) =? 0)%nat) with false; cycle 1.
  { symmetry. apply orb_false_iff. split; [by apply bool_decide_eq_false_2|].
    apply Nat.eqb_neq. by destruct (sanitizeInput m). }
  rewrite addRateLimitTimestamp_eq. mred. rewrite addMessageToHistory_eq. mred.
  eexists. split; [reflexivity|]. wproj.
  rewrite stored_of_insert, decide_True by done.
  repeat split. by rewrite insert_insert_eq.
Qed.

End Handlers.

(** ** Every handler, one step *)

(** Case analysis on a scrutinee that has no case analysis inside. *)
Ltac inner_case :=
  match goal with
  | |- context [match ?x with _ => _ end] =>
      lazymatch x with
      | context [match _ with _ => _ end] => fail
      | _ => destruct x eqn:?
      end
  end.

Ltac mstep :=
  first [ rewrite isRateLimited_eq
        | rewrite addRateLimitTimestamp_eq
        | rewrite addMessageToHistory_eq
        | progress mred
        | inner_case ].

Ltac outbox_grows :=
  wproj; rewrite <- ?app_assoc; first [reflexivity | symmetry; apply app_nil_r].

Section Steps.

(** What one event does to the history store and to the outbox: the
    outbox only grows, and either the store is untouched and nothing is
    broadcast as [received_message], or the event is a chat_message that
    appended one message of type user to one room and broadcast that same
    message to that room. *)
Lemma handle_history (e : event) (w : world) :
  ∃ w' res new,
    handle e w = (w', res)
    ∧ clock w' = clock w
    ∧ outbox w' = outbox w ++ new
    ∧ ((messageHistory w' = messageHistory w ∧ ∀ room, broadcasts room new = [])
       ∨ ∃ s d room msg,
           e = ChatMessage s d
           ∧ message_type msg = js "user"
           ∧ messageHistory w' = <[room := push_capped (history_of w room) msg]> (messageHistory w)
           ∧ new = [Emit (ToRoom room) "received_message" (PMessage msg)]).
Proof.
  destruct e; cbn [handle];
    unfold on_join, on_chat_message, on_private_message, on_typing, on_change_room,
      on_disconnect, on_get_users, on_get_rooms;
    repeat mstep; simplify_eq;
    eexists _, _, _; (split; [reflexivity|]); (split; [reflexivity|]);
    (split; [outbox_grows|]);
    first [ left; split; [reflexivity | intros; reflexivity]
          | right; eexists _, _, (User.room _), (UserMessage _ _ _ _ _);
            split; [reflexivity|]; split; [|split]; reflexivity ].
Qed.

Lemma broadcasts_app room o1 o2 :
  broadcasts room (o1 ++ o2) = broadcasts room o1 ++ broadcasts room o2.
Proof. apply omap_app. Qed.

Lemma broadcasts_received room r msg :
  broadcasts room [Emit (ToRoom r) "received_message" (PMessage msg)]
  = if decide (r = room) then [msg] else [].
Proof.
  unfold broadcasts, broadcast_to. cbn.
  destruct (decide (r = room)) as [Heq|Hne].
  - by rewrite bool_decide_eq_true_2.
  - by rewrite bool_decide_eq_false_2.
Qed.

Lemma emitted_app w w' new : outbox w' = outbox w ++ new → emitted w w' = new.
Proof. unfold emitted. intros ->. by rewrite drop_app_length. Qed.

(** A run of events: the outbox only grows, and each room's buffer is its
    old buffer with the messages broadcast to the room pushed onto it, in
    the order of the broadcasts. *)
Lemma run_history (es : list event) : ∀ w,
  ∃ w' res new,
    run es w = (w', res)
    ∧ clock w' = clock w
    ∧ outbox w' = outbox w ++ new
    ∧ ∀ room, history_of w' room
              = foldl push_capped (history_of w room) (broadcasts room new).
Proof.
  induction es as [|e es IH]; intros w.
  - exists w, (Ok ()), []. rewrite app_nil_r. by repeat split.
  - destruct (handle_history e w) as (w1 & res1 & new1 & He & Hclk1 & Hout1 & Hhist).
    assert (Hstep : ∀ room, history_of w1 room
                            = foldl push_capped (history_of w room) (broadcasts room new1)).
    { intros room. destruct Hhist as [[Hsame Hnone]|(s & d & r & msg & _ & _ & Hins & ->)].
      - rewrite Hnone. unfold history_of. by rewrite Hsame.
      - rewrite broadcasts_received. unfold history_of at 1. rewrite Hins, lookup_insert.
        by destruct (decide (r = room)) as [->|]. }
    cbn [run]. unfold mbind, M_bind. rewrite He.
    destruct res1 as [[]|].
    + destruct (IH w1) as (w' & res & new & Hrun & Hclk & Hout & Hh).
      exists w', res, (new1 ++ new). split; [done|]. split; [congruence|].
      split; [by rewrite Hout, Hout1, app_assoc|].
      intros room. by rewrite Hh, Hstep, broadcasts_app, foldl_app.
    + exists w1, Throw, new1. by repeat split.
Qed.

(** Type user is all the store ever holds. *)
Lemma handle_only_user (e : event) (w : world) :
  only_user_messages (messageHistory w) →
  only_user_messages (messageHistory (handle e w).1).
Proof.
  intros Hinv.
  destruct (handle_history e w) as (w1 & res1 & new1 & He & _ & _ & Hhist).
  rewrite He. cbn [fst].
  destruct Hhist as [[-> _]|(s & d & r & msg & _ & Htype & -> & _)]; [done|].
  intros room history m Hlook Hin.
  rewrite lookup_insert in Hlook. destruct (decide (r = room)) as [->|Hne].
  - injection Hlook as <-. unfold push_capped in Hin.
    apply elem_of_app in Hin as [Hin|Hin].
    + unfold history_of in Hin.
      destruct (messageHistory w !! room) as [h|] eqn:Hh; cbn [default] in Hin.
      * apply (Hinv room h m Hh). case_bool_decide; [|done].
        by apply (subseteq_drop 1 h).
      * exfalso. case_bool_decide; [apply (subseteq_drop 1 []) in Hin|];
          by apply not_elem_of_nil in Hin.
    + apply list_elem_of_singleton in Hin as ->. exact Htype.
  - by apply (Hinv room history m).
Qed.

Lemma run_only_user (es : list event) : ∀ w,
  only_user_messages (messageHistory w) →
  only_user_messages (messageHistory (run es w).1).
Proof.
  induction es as [|e es IH]; intros w Hinv; [done|].
  cbn [run]. unfold mbind, M_bind.
  pose proof (handle_only_user e w Hinv) as H1.
  destruct (handle e w) as [w1 [[]|]]; cbn [fst] in *; [by apply IH | done].
Qed.

(** What one event does to the presence registry. *)
Lemma handle_users (e : event) (w : world) :
  users (handle e w).1 = users w
  ∨ (∃ s d u r,
        e = Join s d
        ∧ username_free (sanitizeInput u) (or_general (sanitizeInput r)) (users w) = true
        ∧ users (handle e w).1
          = JsMap.set s (User.Make (sanitizeInput u) (or_general (sanitizeInput r)) s) (users w))
  ∨ (∃ s, e = Disconnect s ∧ users (handle e w).1 = JsMap.delete s (users w))
  ∨ (∃ s d, e = ChangeRoom s d).
Proof.
  destruct e; cbn [handle];
    try (right; right; right; eexists _, _; reflexivity);
    unfold on_join, on_chat_message, on_private_message, on_typing,
      on_disconnect, on_get_users, on_get_rooms;
    repeat mstep; simplify_eq; wproj;
    first [ left; reflexivity
          | right; left; eexists _, _, _, _; split; [reflexivity|];
            split; [by apply negb_false_iff | reflexivity]
          | right; right; left; eexists; split; reflexivity ].
Qed.

Lemma reachable_run (clk : nat → Z) (es : list event) :
  (run es (init clk)).2 = Ok () → reachable (run es (init clk)).1.
Proof.
  intros H. exists clk, es. destruct (run es (init clk)) as [w r].
  cbn [fst snd] in *. by subst.
Qed.

(** [isUsernameAvailable] does its work: every event other than
    change_room keeps the usernames of each room distinct. *)
Lemma unique_usernames_step (e : event) (w : world) :
  (∀ s d, e ≠ ChangeRoom s d) →
  unique_usernames (users w) →
  unique_usernames (users (handle e w).1).
Proof.
  intros Hnot Huniq.
  destruct (handle_users e w)
    as [->|[(s & d & u & r & _ & Hfree & ->)|[(s & _ & ->)|(s & d & ->)]]].
  - done.
  - by apply unique_usernames_set.
  - by apply unique_usernames_delete.
  - by destruct (Hnot s d).
Qed.

Lemma unique_usernames_run (es : list event) : ∀ w,
  (∀ e s d, e ∈ es → e ≠ ChangeRoom s d) →
  unique_usernames (users w) →
  unique_usernames (users (run es w).1).
Proof.
  induction es as [|e es IH]; intros w Hnot Huniq; [done|].
  cbn [run]. unfold mbind, M_bind.
  pose proof (unique_usernames_step e w
                (λ s d, Hnot e s d (list_elem_of_here e es)) Huniq) as Hstep.
  destruct (handle e w) as [w1 [[]|]]; cbn [fst] in *; [|done].
  apply IH; [|done]. intros e' s d Hin. by apply Hnot, list_elem_of_further.
Qed.

(** C1.  The invariant does not survive change_room, which moves the
    connection without asking [isUsernameAvailable]: after alice joins tech
    on s1, alice joins gaming on s2 and s2 changes room to tech, the state
    is reachable and the user list of tech holds alice twice. *)
Theorem change_room_collocates_equal_usernames :
  reachable w_collocated
  ∧ users_in_room (js "tech") (users w_collocated)
    = [(js "alice", js "s1"); (js "alice", js "s2")]
  ∧ ¬ unique_usernames (users w_collocated).
Proof.
  split; [apply reachable_run; vm_compute; reflexivity|].
  split; [vm_compute; reflexivity|].
  intros H. specialize (H (js "tech")).
  assert (Hnames : usernames_in (js "tech") (users w_collocated) = [js "alice"; js "alice"])
    by (vm_compute; reflexivity).
  rewrite Hnames in H. apply NoDup_cons in H as [Hnotin _].
  apply Hnotin, list_elem_of_here.
Qed.

(** C9.  In every reachable state, every message stored in any room's
    history buffer has type user; and an event that is not a chat_message
    (join, private_message, typing, change_room, disconnect, get_users,
    get_rooms) leaves the history store exactly as it was, so no system
    notice and no private message is ever stored. *)
Theorem history_holds_only_user_messages (w : world) (room : jsstring)
    (history : list message) (msg : message) :
  reachable w →
  messageHistory w !! room = Some history →
  msg ∈ history →
  message_type msg = js "user"
  ∧ ∀ e w0, (∃ s d, e = ChatMessage s d)
            ∨ messageHistory (handle e w0).1 = messageHistory w0.
Proof.
  intros (clk & es & Hrun) Hlook Hin. split.
  - pose proof (run_only_user es (init clk)) as Hinv. rewrite Hrun in Hinv.
    apply (Hinv ltac:(intros ? ? ? H; unfold init in H; cbn [messageHistory] in H;
                      by rewrite lookup_empty in H) room history msg Hlook Hin).
  - intros e w0.
    destruct (handle_history e w0) as (w1 & res & new & He & _ & _ & Hhist).
    rewrite He. destruct Hhist as [[Hsame _]|(s & d & _ & _ & -> & _)]; [by right|].
    left. by exists s, d.
Qed.

Lemma history_holds_only_user_messages_witness :
  message_type (UserMessage (js "alice") (js "&lt;script&gt;") 1000003 (js "tech") (js "s1"))
  = js "user"
  ∧ ∀ e w0, (∃ s d, e = ChatMessage s d)
            ∨ messageHistory (handle e w0).1 = messageHistory w0.
Proof.
  apply (history_holds_only_user_messages w_chat (js "tech")
           [UserMessage (js "alice") (js "&lt;script&gt;") 1000003 (js "tech") (js "s1")]);
    [ apply reachable_run; vm_compute; reflexivity
    | vm_compute; reflexivity
    | apply list_elem_of_here ].
Defined.

End Steps.

(** ** Joining again, and the round trip through the history *)

Section Rejoin.

Lemma join_emitted (w w' : world) (socket_id : jsstring) (data u r : value) :
  join_accepted w data u r →
  on_join socket_id data w = (w', Ok ()) →
  let username := sanitizeInput u in
  let room := or_general (sanitizeInput r) in
  let entries := JsMap.set socket_id (User.Make username room socket_id) (users w) in
  emitted w w'
  = [Emit (ToSocket socket_id) "message_history" (PHistory (history_of w room));
     Emit (ToRoom room) "user_joined"
       (PMessage (SystemMessage (username ++ js " a rejoint le chat") (now_of w) room));
     Emit (ToRoom room) "users_list" (PUsersList (users_in_room room entries));
     Emit (ToSocket socket_id) "join_success"
       (PJoinSuccess username room (length (users_in_room room entries)))].
Proof.
  intros Hacc Hjoin username room entries.
  destruct (on_join_accepted w socket_id data u r Hacc) as (w0 & Hjoin0 & _ & _ & _ & _ & _ & Hout).
  rewrite Hjoin in Hjoin0. injection Hjoin0 as <-.
  by apply emitted_app.
Qed.

Lemma join_history_payload (w w' : world) (socket_id : jsstring) (data u r : value)
    (history : list message) :
  join_accepted w data u r →
  on_join socket_id data w = (w', Ok ()) →
  Emit (ToSocket socket_id) "message_history" (PHistory history) ∈ emitted w w' →
  history = history_of w (or_general (sanitizeInput r)).
Proof.
  intros Hacc Hjoin Hemit.
  rewrite (join_emitted _ _ _ _ _ _ Hacc Hjoin) in Hemit.
  apply elem_of_cons in Hemit as [Heq|Hemit]; [by injection Heq|].
  repeat (apply elem_of_cons in Hemit as [Heq|Hemit]; [discriminate Heq|]).
  by apply not_elem_of_nil in Hemit.
Qed.

(** C10, as amended.  When a Joined connection sends a join that is
    accepted and whose (defaulted) target room differs from the room it is
    in, the handler overwrites the connection's registry entry, joins the
    channel of the target room and leaves no channel, emits no [user_left]
    and addresses nothing at all to the previous room, leaves the history
    store untouched and keeps the registry entries of all other
    connections. *)
Theorem second_join_other_room (w : world) (socket_id : jsstring) (data u r : value)
    (previous : User.t) :
  JsMap.get socket_id (users w) = Some previous →
  join_accepted w data u r →
  or_general (sanitizeInput r) ≠ User.room previous →
  let username := sanitizeInput u in
  let room := or_general (sanitizeInput r) in
  ∃ w',
    on_join socket_id data w = (w', Ok ())
    ∧ users w' = JsMap.set socket_id (User.Make username room socket_id) (users w)
    ∧ (socket_id, room) ∈ channels w'
    ∧ (∀ c, c ∈ channels w → c ∈ channels w')
    ∧ (∀ e, e ∈ emitted w w' →
         em_event e ≠ "user_left"%string
         ∧ em_to e ≠ ToRoom (User.room previous)
         ∧ ∀ s, em_to e ≠ ToRoomExcept (User.room previous) s)
    ∧ messageHistory w' = messageHistory w
    ∧ ∀ s, s ≠ socket_id → JsMap.get s (users w') = JsMap.get s (users w).
Proof.
  intros Hprev Hacc Hother username room.
  destruct (on_join_accepted w socket_id data u r Hacc)
    as (w' & Hjoin & Hus & Hch & Hmh & _ & _ & Hout).
  exists w'. split; [done|]. split; [done|].
  split; [|split; [|split; [|split; [done|]]]].
  - rewrite Hch. fold room. destruct (decide _); [done|].
    apply elem_of_app. right. apply list_elem_of_here.
  - intros c Hc. rewrite Hch. destruct (decide _); [done|].
    apply elem_of_app. by left.
  - intros e He. rewrite (join_emitted w w' socket_id data u r Hacc Hjoin) in He.
    repeat (apply elem_of_cons in He as [->|He]);
      [| | | | by apply not_elem_of_nil in He];
      cbn [em_event em_to]; (split; [done|]);
      (split; [intros [=]; try done | intros s [=]]).
  - intros s Hs. rewrite Hus. by apply get_set_ne.
Qed.

Lemma second_join_other_room_witness :
  let username := js "alice" in
  let room := js "gaming" in
  ∃ w',
    on_join (js "s1") (join_data "alice" "gaming") w_alice = (w', Ok ())
    ∧ users w' = JsMap.set (js "s1") (User.Make username room (js "s1")) (users w_alice)
    ∧ (js "s1", room) ∈ channels w'
    ∧ (∀ c, c ∈ channels w_alice → c ∈ channels w')
    ∧ (∀ e, e ∈ emitted w_alice w' →
         em_event e ≠ "user_left"%string
         ∧ em_to e ≠ ToRoom (js "tech")
         ∧ ∀ s, em_to e ≠ ToRoomExcept (js "tech") s)
    ∧ messageHistory w' = messageHistory w_alice
    ∧ ∀ s, s ≠ js "s1" → JsMap.get s (users w') = JsMap.get s (users w_alice).
Proof.
  apply (second_join_other_room w_alice (js "s1") (join_data "alice" "gaming")
           (VString (js "alice")) (VString (js "gaming")) alice_tech);
    [ reflexivity
    | split; [reflexivity | split; [reflexivity | split; [vm_compute; lia | reflexivity]]]
    | vm_compute; discriminate ].
Defined.

(** C10, read for every target room, fails when the target room is the
    room the connection is already in: alice, in tech on s1, joins tech again as
    alice2; the join is accepted and the handler broadcasts the updated
    user list to tech, the previous room. *)
Lemma second_join_same_room_counterexample : ¬ second_join_as_stated.
Proof.
  intros H.
  assert (Hacc : join_accepted w_alice (join_data "alice2" "tech")
                   (VString (js "alice2")) (VString (js "tech"))).
  { split; [reflexivity | split; [reflexivity | split; [vm_compute; lia | reflexivity]]]. }
  destruct (H w_alice (js "s1") (join_data "alice2" "tech") _ _ alice_tech
              ltac:(apply reachable_run; vm_compute; reflexivity) eq_refl Hacc)
    as (w' & Hjoin & _ & _ & _ & Hquiet & _).
  pose proof (join_emitted w_alice w' (js "s1") _ _ _ Hacc Hjoin) as Hem.
  cbv zeta in Hem.
  destruct (Hquiet (Emit (ToRoom (js "tech")) "users_list"
                      (PUsersList (users_in_room (js "tech")
                         (JsMap.set (js "s1") (User.Make (js "alice2") (js "tech") (js "s1"))
                            (users w_alice)))))) as [_ Hno].
  - rewrite Hem. apply list_elem_of_further, list_elem_of_further, list_elem_of_here.
  - apply Hno. split; reflexivity.
Qed.

(** A stored message stays in its buffer, with the messages that came
    after it behind it, as long as fewer than 100 came after it. *)
Lemma foldl_push_capped_keeps (later : list message) : ∀ (pre : list message) msg behind,
  (length behind + length later < 100)%nat →
  ∃ pre',
    pre' `suffix_of` pre
    ∧ foldl push_capped (pre ++ msg :: behind) later = pre' ++ msg :: behind ++ later.
Proof.
  induction later as [|x later IH]; intros pre msg behind Hlen.
  - exists pre. by rewrite app_nil_r.
  - cbn [foldl length] in *. unfold push_capped at 2.
    case_bool_decide as Hfull.
    + destruct pre as [|p pre].
      { rewrite app_nil_l in Hfull. cbn [length] in Hfull. lia. }
      cbn [app drop]. rewrite drop_0, <- app_assoc. cbn [app].
      destruct (IH pre msg (behind ++ [x])) as (pre' & Hsuf & Heq).
      { rewrite length_app. cbn [length]. lia. }
      exists pre'. split; [by apply suffix_cons_r|].
      by rewrite Heq, <- app_assoc.
    + rewrite <- app_assoc. cbn [app].
      destruct (IH pre msg (behind ++ [x])) as (pre' & Hsuf & Heq).
      { rewrite length_app. cbn [length]. lia. }
      exists pre'. split; [done|]. by rewrite Heq, <- app_assoc.
Qed.

Lemma push_capped_suffix (history : list message) (msg : message) :
  ∃ pre, pre `suffix_of` history ∧ push_capped history msg = pre ++ [msg].
Proof.
  unfold push_capped. case_bool_decide.
  - exists (drop 1 history). split; [apply suffix_drop | done].
  - by exists history.
Qed.

(** C8, as amended.  When a Joined, not rate-limited connection sends a
    chat_message whose sanitized text is not empty, and fewer than 100
    further messages are broadcast to its room by the events that follow,
    then a connection whose join into that room is accepted next receives a
    [message_history] event whose payload holds the message, its text
    being the sanitized text, at its place in the append order: behind
    messages stored before it, and followed by exactly the messages
    broadcast to the room after it, in order. *)
Theorem chat_message_round_trip (w : world) (sender : jsstring) (data : value)
    (user : User.t) (m : value) (w1 : world) (es : list event) (w2 : world)
    (joiner : jsstring) (jdata ju jr : value) :
  chat_admitted w sender data user m →
  sanitizeInput m ≠ [] →
  on_chat_message sender data w = (w1, Ok ()) →
  run es w1 = (w2, Ok ()) →
  (length (broadcasts (User.room user) (emitted w1 w2)) < 100)%nat →
  join_accepted w2 jdata ju jr →
  or_general (sanitizeInput jr) = User.room user →
  ∃ w3 older,
    on_join joiner jdata w2 = (w3, Ok ())
    ∧ Emit (ToSocket joiner) "message_history"
        (PHistory (older ++ sent_message w sender user m
                     :: broadcasts (User.room user) (emitted w1 w2)))
      ∈ emitted w2 w3
    ∧ message_text (sent_message w sender user m) = sanitizeInput m
    ∧ older `suffix_of` history_of w (User.room user).
Proof.
  intros Hadm Hne Hchat Hrun Hfew Hacc Hroom.
  destruct (on_chat_message_accepted w sender data user m Hadm Hne)
    as (w1' & Hchat' & _ & _ & _ & Hmh & _).
  rewrite Hchat in Hchat'. injection Hchat' as <-.
  destruct (run_history es w1) as (w2' & res & new & Hrun' & _ & Hout & Hhist).
  rewrite Hrun in Hrun'. injection Hrun' as <- <-.
  rewrite (emitted_app _ _ _ Hout) in *.
  destruct (push_capped_suffix (history_of w (User.room user)) (sent_message w sender user m))
    as (pre & Hpre & Hpush).
  destruct (foldl_push_capped_keeps (broadcasts (User.room user) new) pre
              (sent_message w sender user m) []) as (older & Holder & Hfold).
  { cbn [length]. lia. }
  destruct (on_join_accepted w2 joiner jdata ju jr Hacc) as (w3 & Hjoin & _).
  exists w3, older. split; [done|].
  split; [|split; [done | by etrans]].
  rewrite (join_emitted w2 w3 joiner jdata ju jr Hacc Hjoin), Hroom.
  rewrite Hhist. unfold history_of at 1. rewrite Hmh, lookup_insert_eq.
  cbn [from_option id].
  fold (sent_message w sender user m). rewrite Hpush, Hfold.
  apply list_elem_of_here.
Qed.

Lemma chat_message_round_trip_witness :
  ∃ w3 older,
    on_join (js "s2") (join_data "bob" "tech") w_again = (w3, Ok ())
    ∧ Emit (ToSocket (js "s2")) "message_history"
        (PHistory (older ++ sent_message w_alice (js "s1") alice_tech (VString (js "<script>"))
                     :: broadcasts (User.room alice_tech) (emitted w_chat w_again)))
      ∈ emitted w_again w3
    ∧ message_text (sent_message w_alice (js "s1") alice_tech (VString (js "<script>")))
      = sanitizeInput (VString (js "<script>"))
    ∧ older `suffix_of` history_of w_alice (User.room alice_tech).
Proof.
  refine (chat_message_round_trip w_alice (js "s1") (message_data "<script>") alice_tech
            (VString (js "<script>")) w_chat once_more w_again (js "s2")
            (join_data "bob" "tech") (VString (js "bob")) (VString (js "tech"))
            _ _ _ _ _ _ _).
  - split; [vm_compute; reflexivity | split; [vm_compute; lia | reflexivity]].
  - vm_compute. discriminate.
  - vm_compute. reflexivity.
  - vm_compute. reflexivity.
  - vm_compute. lia.
  - split; [reflexivity | split; [reflexivity | split; [vm_compute; lia|]]].
    vm_compute. reflexivity.
  - vm_compute. reflexivity.
Defined.

(** C8, read for every later join, fails once 100 further messages have
    gone to the room: alice sends a first message and then a hundred more; bob,
    who joins afterwards, gets the hundred later ones and not the first. *)
Lemma round_trip_eviction_counterexample : ¬ round_trip_as_stated.
Proof.
  intros H.
  assert (Hacc : join_accepted w_hundred (join_data "bob" "tech")
                   (VString (js "bob")) (VString (js "tech"))).
  { split; [reflexivity | split; [reflexivity | split; [vm_compute; lia|]]].
    vm_compute. reflexivity. }
  destruct (H w_slow (js "s1") (message_data "first") alice_tech (VString (js "first"))
              w_first hundred_more w_hundred (js "s2") (join_data "bob" "tech")
              (VString (js "bob")) (VString (js "tech")))
    as (w3 & history & Hjoin & Hemit & Hin).
  - apply reachable_run. vm_compute. reflexivity.
  - split; [vm_compute; reflexivity | split; [vm_compute; lia | reflexivity]].
  - vm_compute. discriminate.
  - vm_compute. reflexivity.
  - vm_compute. reflexivity.
  - exact Hacc.
  - vm_compute. reflexivity.
  - apply (join_history_payload _ _ _ _ _ _ _ Hacc Hjoin) in Hemit.
    assert (Hout : bool_decide
              (sent_message w_slow (js "s1") alice_tech (VString (js "first"))
               ∈ history_of w_hundred (or_general (sanitizeInput (VString (js "tech")))))
            = false) by (vm_compute; reflexivity).
    apply bool_decide_eq_false in Hout. apply Hout. rewrite <- Hemit. exact Hin.
Qed.

End Rejoin.

(** ** The scenario of the specification, run *)

Section Scenario.

(** alice joins the empty room tech: she gets an empty history, the room
    gets the notice and the list with her alone, she gets the
    confirmation. *)
Example scenario_join :
  outbox w_alice
  = [Emit (ToSocket (js "s1")) "message_history" (PHistory []);
     Emit (ToRoom (js "tech")) "user_joined"
       (PMessage (SystemMessage (js "alice a rejoint le chat") 1000000 (js "tech")));
     Emit (ToRoom (js "tech")) "users_list" (PUsersList [(js "alice", js "s1")]);
     Emit (ToSocket (js "s1")) "join_success" (PJoinSuccess (js "alice") (js "tech") 1)].
Proof. vm_compute. reflexivity. Qed.

(** Her message is stored and broadcast with its text escaped. *)
Example scenario_script :
  history_of w_chat (js "tech")
  = [UserMessage (js "alice") (js "&lt;script&gt;") 1000003 (js "tech") (js "s1")]
  ∧ last (outbox w_chat)
    = Some (Emit (ToRoom (js "tech")) "received_message"
              (PMessage (UserMessage (js "alice") (js "&lt;script&gt;") 1000003
                           (js "tech") (js "s1")))).
Proof. split; vm_compute; reflexivity. Qed.

(** A second connection asking for the name alice in tech is refused. *)
Example scenario_name_taken :
  let w := (on_join (js "s2") (join_data "alice" "tech") w_chat).1 in
  users w = users w_chat
  ∧ emitted w_chat w
    = [Emit (ToSocket (js "s2")) "error"
         (PError (js "Ce nom d'utilisateur est déjà pris dans cette salle"))].
Proof. split; vm_compute; reflexivity. Qed.

(** bob sends 11 messages within a few milliseconds: the 11th is answered
    with an error and 10 messages are in the history. *)
Example scenario_eleven_messages :
  let w := (run (Join (js "s2") (join_data "bob" "tech")
                   :: replicate 11 (ChatMessage (js "s2") (message_data "hello")))
              (init (ticking 1))).1 in
  length (history_of w (js "tech")) = 10%nat
  ∧ last (outbox w)
    = Some (Emit (ToSocket (js "s2")) "error"
              (PError (js "Vous envoyez trop de messages. Veuillez patienter."))).
Proof. split; vm_compute; reflexivity. Qed.

(** alice, in tech with bob, changes room to gaming.  The list sent to
    tech is computed before her entry is moved and still holds her; the
    list of gaming holds her alone. *)
Example scenario_change_room :
  let w0 := (run [Join (js "s1") (join_data "alice" "tech");
                  Join (js "s2") (join_data "bob" "tech")] (init (ticking 1))).1 in
  let w := (on_change_room (js "s1") (room_data "gaming") w0).1 in
  emitted w0 w
  = [Emit (ToRoom (js "tech")) "user_left"
       (PMessage (SystemMessage (js "alice a quitté la salle") 1000002 (js "tech")));
     Emit (ToRoom (js "tech")) "users_list"
       (PUsersList [(js "alice", js "s1"); (js "bob", js "s2")]);
     Emit (ToSocket (js "s1")) "message_history" (PHistory []);
     Emit (ToRoom (js "gaming")) "user_joined"
       (PMessage (SystemMessage (js "alice a rejoint la salle") 1000003 (js "gaming")));
     Emit (ToRoom (js "gaming")) "users_list" (PUsersList [(js "alice", js "s1")]);
     Emit (ToSocket (js "s1")) "room_changed" (PRoomChanged (js "gaming") 1)]
  ∧ channels w = [(js "s2", js "tech"); (js "s1", js "gaming")].
Proof. split; vm_compute; reflexivity. Qed.

(** A payload that is not an object: join answers with its catch-all
    error, typing on a Joined connection is left uncaught. *)
Example scenario_no_payload :
  emitted w_alice (on_join (js "s2") VUndefined w_alice).1
  = [Emit (ToSocket (js "s2")) "error" (PError (js "Erreur lors de la connexion au chat"))]
  ∧ (on_typing (js "s1") VUndefined w_alice).2 = Throw.
Proof. split; vm_compute; reflexivity. Qed.

End Scenario.

(* ====================================================================== *)
(** * Further properties of the code *)
(* ====================================================================== *)

(** ** Utility functions *)

Section Utilities.

Lemma char_reference_markup_free (c : N) :
  Forall (λ x, is_markup x = false) (char_reference c).
Proof.
  unfold char_reference.
  repeat (case_match; [repeat constructor|]).
  constructor; [|constructor].
  unfold is_markup. by repeat (apply orb_false_intro; [|done]).
Qed.

Lemma Forall_trim_start (P : N → Prop) (s : jsstring) :
  Forall P s → Forall P (trim_start s).
Proof.
  induction 1 as [|x l Hx Hl IH]; cbn [trim_start]; [constructor|].
  destruct (is_white_space x); [done | by constructor].
Qed.

Lemma Forall_trim (P : N → Prop) (s : jsstring) : Forall P s → Forall P (trim s).
Proof.
  intros H. unfold trim.
  by apply Forall_reverse, Forall_trim_start, Forall_reverse, Forall_trim_start.
Qed.

Lemma sanitizeInput_markup_free (text : value) :
  Forall (λ c, is_markup c = false) (sanitizeInput text).
Proof.
  destruct text; try constructor.
  unfold sanitizeInput, substring0. rewrite replacements_all.
  apply Forall_take, Forall_trim.
  induction s as [|c s IH]; [constructor|].
  cbn [flat_map]. apply Forall_app. split; [apply char_reference_markup_free | done].
Qed.

(** X1.  Whatever the input, the text [sanitizeInput] returns holds no
    less-than, greater-than, double quote, apostrophe or slash. *)
Theorem sanitizeInput_never_returns_markup (text : value) (c : N) :
  c ∈ sanitizeInput text → c ≠ 60 ∧ c ≠ 62 ∧ c ≠ 34 ∧ c ≠ 39 ∧ c ≠ 47.
Proof.
  intros Hin.
  pose proof (sanitizeInput_markup_free text) as Hall.
  rewrite Forall_forall in Hall. specialize (Hall c Hin).
  unfold is_markup in Hall.
  repeat (apply orb_false_elim in Hall as [Hall ?]).
  repeat split; by apply N.eqb_neq.
Qed.

Lemma sanitizeInput_never_returns_markup_witness :
  (108 : N) ∈ sanitizeInput (VString (js "<"))
  ∧ (108 : N) ≠ 60 ∧ (108 : N) ≠ 62 ∧ (108 : N) ≠ 34 ∧ (108 : N) ≠ 39 ∧ (108 : N) ≠ 47.
Proof.
  assert (Hin : (108 : N) ∈ sanitizeInput (VString (js "<")))
    by (vm_compute; apply list_elem_of_further, list_elem_of_here).
  split; [exact Hin|].
  exact (sanitizeInput_never_returns_markup (VString (js "<")) 108 Hin).
Defined.

Lemma flat_map_char_reference_clean (s : jsstring) :
  Forall (λ c, is_replaced c = false) s → flat_map char_reference s = s.
Proof.
  induction 1 as [|c s Hc Hs IH]; [done|].
  cbn [flat_map]. rewrite IH. unfold char_reference.
  unfold is_replaced, is_markup in Hc.
  apply orb_false_elim in Hc as [H38 Hm].
  repeat (apply orb_false_elim in Hm as [Hm ?]).
  by repeat match goal with H : (c =? _) = false |- _ => rewrite H; clear H end.
Qed.

(** X2.  A string that holds none of the six replaced characters, has no
    white space at either end and is at most 500 code units long comes back
    from [sanitizeInput] unchanged. *)
Theorem sanitizeInput_keeps_clean_text (s : jsstring) :
  Forall (λ c, is_replaced c = false) s →
  trim s = s →
  (length s ≤ 500)%nat →
  sanitizeInput (VString s) = s.
Proof.
  intros Hclean Htrim Hlen.
  unfold sanitizeInput, substring0.
  rewrite replacements_all, (flat_map_char_reference_clean s Hclean), Htrim.
  by apply take_ge.
Qed.

Lemma sanitizeInput_keeps_clean_text_witness :
  sanitizeInput (VString (js "alice 42")) = js "alice 42".
Proof.
  apply (sanitizeInput_keeps_clean_text (js "alice 42")).
  - vm_compute. repeat constructor.
  - reflexivity.
  - vm_compute. lia.
Defined.

(** X3.  [isUsernameAvailable] only reads the registry, and answers false
    exactly when some registered user has that username in that room: the
    same name in another room does not count. *)
Theorem isUsernameAvailable_room_scoped (username room : jsstring) (w : world) :
  ∃ available,
    isUsernameAvailable username room w = (w, Ok available)
    ∧ (available = false
       ↔ ∃ socketId user,
           (socketId, user) ∈ users w
           ∧ User.username user = username ∧ User.room user = room).
Proof.
  eexists. split; [reflexivity|].
  rewrite username_free_false. split.
  - intros (socketId & Hin). apply users_in_room_elem in Hin as (user & ? & ? & ?).
    by exists socketId, user.
  - intros (socketId & user & Hin & Hname & Hroom). exists socketId.
    apply users_in_room_elem. by exists user.
Qed.

(** X4.  Once every stored timestamp of a connection is 10,000 ms old or
    older, [isRateLimited] answers false and leaves the connection an empty
    window: a limited connection is admitted again after the window has
    passed. *)
Theorem isRateLimited_recovers (w : world) (socketId : jsstring) :
  (∀ time, time ∈ stored_of w socketId → (RATE_LIMIT_WINDOW ≤ now_of w - time)%Z) →
  isRateLimited socketId w
  = (with_rateLimitMap <[socketId := []]> (with_ticks S w), Ok false).
Proof.
  intros Hold. rewrite isRateLimited_eq.
  assert (Hnone : recent (now_of w) (stored_of w socketId) = []).
  { unfold recent. induction (stored_of w socketId) as [|t l IH]; [done|].
    rewrite filter_cons, decide_False.
    - apply IH. intros time Hin. by apply Hold, list_elem_of_further.
    - specialize (Hold t (list_elem_of_here _ _)). lia. }
  by rewrite Hnone.
Qed.

Lemma isRateLimited_recovers_witness :
  isRateLimited (js "s1") w_stale
  = (with_rateLimitMap <[js "s1" := []]> (with_ticks S w_stale), Ok false).
Proof.
  apply (isRateLimited_recovers w_stale (js "s1")).
  intros time Hin.
  assert (Hst : stored_of w_stale (js "s1") = [0%Z]) by (vm_compute; reflexivity).
  rewrite Hst in Hin. apply list_elem_of_singleton in Hin as ->.
  vm_compute. discriminate.
Defined.

End Utilities.

(** ** Messages: refusals and delivery *)

Section Messages.

(** X5.  A connection that has not joined can do nothing with the events
    that need a session: chat_message and private_message are answered
    with one error to that socket, typing, change_room and get_users with
    nothing; in every case nothing else changes, whatever the payload. *)
Theorem unjoined_connection_is_inert (e : event) (w : world) :
  needs_session e = true →
  JsMap.get (event_socket e) (users w) = None →
  handle e w
  = (match e with
     | ChatMessage _ _ | PrivateMessageEv _ _ =>
         with_outbox
           (λ o, o ++ [error_to (event_socket e) "Vous devez d'abord rejoindre un salon"]) w
     | _ => w
     end, Ok ()).
Proof.
  intros Hneeds Hnone.
  destruct e; try discriminate Hneeds; cbn [handle event_socket] in *;
    unfold on_chat_message, on_private_message, on_typing, on_change_room, on_get_users,
      try_catch, mbind, M_bind, gets; rewrite !Hnone; by mred.
Qed.

Lemma unjoined_connection_is_inert_witness :
  handle (ChatMessage (js "s9") (message_data "hello")) w_alice
  = (with_outbox
       (λ o, o ++ [error_to (js "s9") "Vous devez d'abord rejoindre un salon"]) w_alice,
     Ok ()).
Proof.
  apply (unjoined_connection_is_inert (ChatMessage (js "s9") (message_data "hello")) w_alice);
    [reflexivity | vm_compute; reflexivity].
Defined.

(** X6.  A chat_message from a Joined connection whose window already
    holds 10 timestamps younger than 10,000 ms is refused before its
    payload is looked at: one error goes to the sender, nothing is
    broadcast or stored, no timestamp is recorded, and the stored window
    is replaced by its younger timestamps. *)
Theorem chat_message_rate_limited (w : world) (socket_id : jsstring) (data : value)
    (user : User.t) :
  JsMap.get socket_id (users w) = Some user →
  (RATE_LIMIT_MAX ≤ length (recent (now_of w) (stored_of w socket_id)))%nat →
  on_chat_message socket_id data w
  = (with_outbox
       (λ o, o ++ [error_to socket_id "Vous envoyez trop de messages. Veuillez patienter."])
       (with_rateLimitMap <[socket_id := recent (now_of w) (stored_of w socket_id)]>
          (with_ticks S w)),
     Ok ()).
Proof.
  intros Huser Hlim.
  unfold on_chat_message, try_catch, mbind, M_bind.
  unfold gets at 1. rewrite Huser, isRateLimited_eq.
  by rewrite bool_decide_eq_true_2.
Qed.

Lemma chat_message_rate_limited_witness :
  on_chat_message (js "s2") VNull w_ten
  = (with_outbox
       (λ o, o ++ [error_to (js "s2") "Vous envoyez trop de messages. Veuillez patienter."])
       (with_rateLimitMap <[js "s2" := recent (now_of w_ten) (stored_of w_ten (js "s2"))]>
          (with_ticks S w_ten)),
     Ok ()).
Proof.
  apply (chat_message_rate_limited w_ten (js "s2") VNull bob_tech);
    [vm_compute; reflexivity | vm_compute; lia].
Defined.

(** X7.  An accepted chat_message is broadcast once, to the room the
    sender is in and nowhere else; the message broadcast is the message
    stored, as the newest entry of that room's buffer, while the buffers of
    all other rooms stay as they are; the sender's window gets the new
    timestamp at its end and the registry is not touched. *)
Theorem chat_message_delivered (w : world) (socket_id : jsstring) (data : value)
    (user : User.t) (m : value) :
  chat_admitted w socket_id data user m →
  sanitizeInput m ≠ [] →
  ∃ w',
    on_chat_message socket_id data w = (w', Ok ())
    ∧ emitted w w'
      = [Emit (ToRoom (User.room user)) "received_message"
           (PMessage (sent_message w socket_id user m))]
    ∧ last (history_of w' (User.room user)) = Some (sent_message w socket_id user m)
    ∧ (∀ room, room ≠ User.room user → history_of w' room = history_of w room)
    ∧ last (stored_of w' socket_id) = Some (clock w (S (ticks w)))
    ∧ users w' = users w.
Proof.
  intros Hadm Hne.
  destruct (on_chat_message_accepted w socket_id data user m Hadm Hne)
    as (w' & Hrun & Hus & _ & _ & Hmh & Hrl & Hout).
  exists w'. split; [done|].
  split; [by apply emitted_app|].
  split; [|split; [|split; [|done]]].
  - unfold history_of. rewrite Hmh, lookup_insert_eq. cbn [from_option id].
    unfold push_capped. apply last_snoc.
  - intros room Hroom. unfold history_of. by rewrite Hmh, lookup_insert_ne.
  - unfold stored_of. rewrite Hrl, lookup_insert_eq. cbn [from_option id].
    apply last_snoc.
Qed.

Lemma chat_message_delivered_witness :
  ∃ w',
    on_chat_message (js "s1") (message_data "<script>") w_alice = (w', Ok ())
    ∧ emitted w_alice w'
      = [Emit (ToRoom (User.room alice_tech)) "received_message"
           (PMessage (sent_message w_alice (js "s1") alice_tech (VString (js "<script>"))))]
    ∧ last (history_of w' (User.room alice_tech))
      = Some (sent_message w_alice (js "s1") alice_tech (VString (js "<script>")))
    ∧ (∀ room, room ≠ User.room alice_tech → history_of w' room = history_of w_alice room)
    ∧ last (stored_of w' (js "s1")) = Some (clock w_alice (S (ticks w_alice)))
    ∧ users w' = users w_alice.
Proof.
  refine (chat_message_delivered w_alice (js "s1") (message_data "<script>") alice_tech
            (VString (js "<script>")) _ _).
  - split; [vm_compute; reflexivity | split; [vm_compute; lia | reflexivity]].
  - vm_compute. discriminate.
Defined.

(** X8.  A private_message from a Joined, not rate-limited connection to
    the socket id of a registered user is emitted twice with one and the
    same payload: to the recipient's socket and back to the sender.  The
    text is the sanitized text, also when that is empty, and the recipient
    may be in any room; nothing is written to the history store, the
    registry is not touched, and the sender's window gets the new
    timestamp. *)
Theorem private_message_delivered (w : world) (socket_id : jsstring) (data : value)
    (sender : User.t) (m : value) (target : jsstring) (recipient : User.t) :
  JsMap.get socket_id (users w) = Some sender →
  get_prop data (js "message") = Ok m →
  get_prop data (js "targetSocketId") = Ok (VString target) →
  JsMap.get target (users w) = Some recipient →
  (length (recent (now_of w) (stored_of w socket_id)) < RATE_LIMIT_MAX)%nat →
  let privateMessage :=
    PrivateMessage (User.username sender) (User.username recipient) (sanitizeInput m)
      (clock w (S (S (ticks w)))) socket_id target in
  ∃ w',
    on_private_message socket_id data w = (w', Ok ())
    ∧ emitted w w'
      = [Emit (ToRoom target) "private_message_received" (PMessage privateMessage);
         Emit (ToSocket socket_id) "private_message_sent" (PMessage privateMessage)]
    ∧ messageHistory w' = messageHistory w
    ∧ users w' = users w
    ∧ channels w' = channels w
    ∧ rateLimitMap w'
      = <[socket_id := recent (now_of w) (stored_of w socket_id) ++ [clock w (S (ticks w))]]>
          (rateLimitMap w).
Proof.
  intros Hsender Hm Htarget Hrecipient Hlim privateMessage.
  unfold on_private_message, try_catch, mbind, M_bind.
  unfold gets at 1. rewrite Hsender, Hm. mred. rewrite Htarget. mred.
  cbn [users_get]. rewrite Hrecipient, isRateLimited_eq.
  rewrite bool_decide_eq_false_2 by lia.
  rewrite addRateLimitTimestamp_eq. mred.
  eexists. split; [reflexivity|].
  unfold emitted. wproj. rewrite <- app_assoc, drop_app_length.
  rewrite stored_of_insert, decide_True by done.
  repeat split. by rewrite insert_insert_eq.
Qed.

Lemma private_message_delivered_witness :
  let data := VObject [(js "message", VString (js "  "));
                       (js "targetSocketId", VString (js "s1"))] in
  let privateMessage :=
    PrivateMessage (User.username alice_tech) (User.username alice_tech)
      (sanitizeInput (VString (js "  "))) (clock w_alice (S (S (ticks w_alice))))
      (js "s1") (js "s1") in
  ∃ w',
    on_private_message (js "s1") data w_alice = (w', Ok ())
    ∧ emitted w_alice w'
      = [Emit (ToRoom (js "s1")) "private_message_received" (PMessage privateMessage);
         Emit (ToSocket (js "s1")) "private_message_sent" (PMessage privateMessage)]
    ∧ messageHistory w' = messageHistory w_alice
    ∧ users w' = users w_alice
    ∧ channels w' = channels w_alice
    ∧ rateLimitMap w'
      = <[js "s1" := recent (now_of w_alice) (stored_of w_alice (js "s1"))
                     ++ [clock w_alice (S (ticks w_alice))]]>
          (rateLimitMap w_alice).
Proof.
  refine (private_message_delivered w_alice (js "s1") _ alice_tech (VString (js "  "))
            (js "s1") alice_tech _ _ _ _ _).
  - vm_compute. reflexivity.
  - reflexivity.
  - reflexivity.
  - vm_compute. reflexivity.
  - vm_compute. lia.
Defined.

(** X9.  A private_message from a Joined connection whose target is not
    the socket id of a registered user (or is not a string at all) is
    answered with one error to the sender and changes nothing else: in
    particular it does not touch the sender's rate window. *)
Theorem private_message_unknown_recipient (w : world) (socket_id : jsstring)
    (data : value) (sender : User.t) (m target : value) :
  JsMap.get socket_id (users w) = Some sender →
  get_prop data (js "message") = Ok m →
  get_prop data (js "targetSocketId") = Ok target →
  users_get target (users w) = None →
  on_private_message socket_id data w
  = (with_outbox (λ o, o ++ [error_to socket_id "Destinataire introuvable"]) w, Ok ()).
Proof.
  intros Hsender Hm Htarget Hnone.
  unfold on_private_message, try_catch, mbind, M_bind.
  unfold gets at 1. rewrite Hsender, Hm. mred. rewrite Htarget. mred.
  by rewrite Hnone.
Qed.

Lemma private_message_unknown_recipient_witness :
  on_private_message (js "s1") (message_data "hello") w_alice
  = (with_outbox (λ o, o ++ [error_to (js "s1") "Destinataire introuvable"]) w_alice,
     Ok ()).
Proof.
  apply (private_message_unknown_recipient w_alice (js "s1") (message_data "hello")
           alice_tech (VString (js "hello")) VUndefined);
    [vm_compute; reflexivity | reflexivity | reflexivity | reflexivity].
Defined.

(** X10.  Private messages draw on the same window as chat messages: a
    private_message to a registered user from a connection whose window
    holds 10 timestamps younger than 10,000 ms is refused with one error to
    the sender; nothing is delivered, no timestamp is recorded, and the
    stored window is replaced by its younger timestamps. *)
Theorem private_message_rate_limited (w : world) (socket_id : jsstring) (data : value)
    (sender : User.t) (m : value) (target : jsstring) (recipient : User.t) :
  JsMap.get socket_id (users w) = Some sender →
  get_prop data (js "message") = Ok m →
  get_prop data (js "targetSocketId") = Ok (VString target) →
  JsMap.get target (users w) = Some recipient →
  (RATE_LIMIT_MAX ≤ length (recent (now_of w) (stored_of w socket_id)))%nat →
  on_private_message socket_id data w
  = (with_outbox
       (λ o, o ++ [error_to socket_id "Vous envoyez trop de messages. Veuillez patienter."])
       (with_rateLimitMap <[socket_id := recent (now_of w) (stored_of w socket_id)]>
          (with_ticks S w)),
     Ok ()).
Proof.
  intros Hsender Hm Htarget Hrecipient Hlim.
  unfold on_private_message, try_catch, mbind, M_bind.
  unfold gets at 1. rewrite Hsender, Hm. mred. rewrite Htarget. mred.
  cbn [users_get]. rewrite Hrecipient, isRateLimited_eq.
  by rewrite bool_decide_eq_true_2.
Qed.

Lemma private_message_rate_limited_witness :
  let data := VObject [(js "message", VString (js "psst"));
                       (js "targetSocketId", VString (js "s2"))] in
  on_private_message (js "s2") data w_ten
  = (with_outbox
       (λ o, o ++ [error_to (js "s2") "Vous envoyez trop de messages. Veuillez patienter."])
       (with_rateLimitMap <[js "s2" := recent (now_of w_ten) (stored_of w_ten (js "s2"))]>
          (with_ticks S w_ten)),
     Ok ()).
Proof.
  refine (private_message_rate_limited w_ten (js "s2") _ bob_tech (VString (js "psst"))
            (js "s2") bob_tech _ _ _ _ _).
  - vm_compute. reflexivity.
  - reflexivity.
  - reflexivity.
  - vm_compute. reflexivity.
  - vm_compute. lia.
Defined.

End Messages.

(** ** Failure behaviour of the handlers *)

Section Failures.

Lemma with_outbox_nil (w : world) : with_outbox (λ o, o ++ []) w = w.
Proof. destruct w. unfold with_outbox. cbn [outbox]. by rewrite app_nil_r. Qed.

Lemma get_prop_Throw (data : value) (k : jsstring) :
  get_prop data k = Throw ↔ no_payload data.
Proof.
  unfold no_payload. destruct data; cbn [get_prop]; naive_solver.
Qed.

(** X11.  No handler but typing lets an exception escape: the result of
    handling an event is an uncaught exception exactly when the event is a
    typing event from a Joined connection whose payload is undefined or
    null. *)
Theorem only_typing_can_throw (e : event) (w : world) :
  (handle e w).2 = Throw
  ↔ ∃ s d user,
      e = Typing s d ∧ JsMap.get s (users w) = Some user ∧ no_payload d.
Proof.
  destruct e; cbn [handle];
    unfold on_join, on_chat_message, on_private_message, on_typing, on_change_room,
      on_disconnect, on_get_users, on_get_rooms;
    repeat mstep; simplify_eq; cbn [snd]; split;
    try discriminate;
    try (intros (? & ? & ? & Heq & _); discriminate Heq);
    first [ done
          | intros _; eexists _, _, _; split; [reflexivity|];
            split; [eassumption | by eapply get_prop_Throw]
          | intros (? & ? & ? & Heq & Hget & Hd); injection Heq as <- <-;
            first [ congruence
                  | apply (proj2 (get_prop_Throw _ (js "isTyping"))) in Hd; congruence ] ].
Qed.

(** X12.  From a Joined connection, a join, a private_message or a
    change_room whose payload is undefined or null is answered with the
    handler's own generic error, sent to the requesting socket, and changes
    nothing else. *)
Theorem missing_payload_is_reported (w : world) (socket_id : jsstring) (data : value)
    (user : User.t) :
  no_payload data →
  JsMap.get socket_id (users w) = Some user →
  on_join socket_id data w
  = (with_outbox (λ o, o ++ [error_to socket_id "Erreur lors de la connexion au chat"]) w,
     Ok ())
  ∧ on_private_message socket_id data w
    = (with_outbox
         (λ o, o ++ [error_to socket_id "Erreur lors de l'envoi du message privé"]) w,
       Ok ())
  ∧ on_change_room socket_id data w
    = (with_outbox
         (λ o, o ++ [error_to socket_id "Erreur lors du changement de salle"]) w,
       Ok ()).
Proof.
  intros Hdata Huser.
  assert (Hthrow : ∀ k, get_prop data k = Throw) by (intros k; by apply get_prop_Throw).
  unfold on_join, on_private_message, on_change_room, try_catch, mbind, M_bind, gets.
  rewrite !Huser, !Hthrow. by mred.
Qed.

Lemma missing_payload_is_reported_witness :
  on_join (js "s1") VUndefined w_alice
  = (with_outbox (λ o, o ++ [error_to (js "s1") "Erreur lors de la connexion au chat"])
       w_alice, Ok ())
  ∧ on_private_message (js "s1") VUndefined w_alice
    = (with_outbox
         (λ o, o ++ [error_to (js "s1") "Erreur lors de l'envoi du message privé"]) w_alice,
       Ok ())
  ∧ on_change_room (js "s1") VUndefined w_alice
    = (with_outbox
         (λ o, o ++ [error_to (js "s1") "Erreur lors du changement de salle"]) w_alice,
       Ok ()).
Proof.
  apply (missing_payload_is_reported w_alice (js "s1") VUndefined alice_tech);
    [by left | vm_compute; reflexivity].
Defined.

(** X13.  typing, get_users and get_rooms only answer: whatever the state
    and the payload, they change neither the registry nor the history, the
    rate windows, the channels or the clock, and consume no rate quota.
    What get_users and get_rooms emit goes to the asking socket alone; what
    typing emits goes to the sender's room without the sender. *)
Theorem answering_events_change_nothing (e : event) (w : world) :
  answers_only e = true →
  ∃ new,
    (handle e w).1 = with_outbox (λ o, o ++ new) w
    ∧ ∀ em, em ∈ new →
        em_to em
        = match e with
          | Typing s _ => ToRoomExcept (from_option User.room [] (JsMap.get s (users w))) s
          | _ => ToSocket (event_socket e)
          end.
Proof.
  intros Hans.
  destruct e; try discriminate Hans; cbn [handle event_socket];
    unfold on_typing, on_get_users, on_get_rooms;
    repeat mstep; simplify_eq; cbn [fst];
    first [ exists []; split;
            [ symmetry; apply with_outbox_nil
            | intros em Hem; by apply not_elem_of_nil in Hem ]
          | eexists [_]; split;
            [ reflexivity
            | intros em Hem; apply list_elem_of_singleton in Hem as ->;
              cbn [em_to from_option]; reflexivity ] ].
Qed.

Lemma answering_events_change_nothing_witness :
  ∃ new,
    (handle (GetRooms (js "s9")) w_alice).1 = with_outbox (λ o, o ++ new) w_alice
    ∧ ∀ em, em ∈ new → em_to em = ToSocket (event_socket (GetRooms (js "s9"))).
Proof.
  apply (answering_events_change_nothing (GetRooms (js "s9")) w_alice). reflexivity.
Defined.

End Failures.

(** ** Changing room, leaving, and the queries *)

Section Rooms.

Lemma set_set_eq {V} (k : jsstring) (v : V) (m : list (jsstring * V)) :
  JsMap.set k v (JsMap.set k v m) = JsMap.set k v m.
Proof.
  induction m as [|[k' v'] m IH]; cbn [JsMap.set].
  - by rewrite decide_True.
  - destruct (decide (k' = k)) as [->|Hne]; cbn [JsMap.set].
    + by rewrite decide_True.
    + by rewrite decide_False, IH.
Qed.

Lemma registered_in_own_room (entries : list (jsstring * User.t)) socket_id user :
  JsMap.get socket_id entries = Some user →
  (User.username user, socket_id) ∈ users_in_room (User.room user) entries.
Proof.
  intros Hget. apply users_in_room_elem. exists user.
  split; [by apply get_Some_elem | done].
Qed.

(** X14.  A change_room whose (defaulted) target is the room the connection
    is already in does nothing at all: no emission, no change of state. *)
Theorem change_room_same_room (w : world) (socket_id : jsstring) (data r : value)
    (user : User.t) :
  JsMap.get socket_id (users w) = Some user →
  get_prop data (js "room") = Ok r →
  or_general (sanitizeInput r) = User.room user →
  on_change_room socket_id data w = (w, Ok ()).
Proof.
  intros Huser Hr Hsame.
  unfold on_change_room, try_catch, mbind, M_bind. unfold gets at 1.
  rewrite Huser, Hr. mred. rewrite Hsame.
  by rewrite bool_decide_eq_true_2.
Qed.

Lemma change_room_same_room_witness :
  on_change_room (js "s1") (room_data " tech ") w_alice = (w_alice, Ok ()).
Proof.
  apply (change_room_same_room w_alice (js "s1") (room_data " tech ")
           (VString (js " tech ")) alice_tech);
    [vm_compute; reflexivity | reflexivity | reflexivity].
Defined.

(** X15.  A change_room of a Joined connection to another room keeps the
    username and rewrites only the room of the connection's entry; the
    socket leaves the channel of the old room and is in the channel of the
    new one; history store and rate windows are untouched.  It emits, in
    this order: the left notice and the user list to the old room, the
    history of the new room to the socket, the joined notice and the user
    list to the new room, and the confirmation to the socket.  The list
    sent to the old room is read before the entry is rewritten and still
    holds the connection; the list sent to the new room holds it too. *)
Theorem change_room_moves (w : world) (socket_id : jsstring) (data r : value)
    (user : User.t) :
  JsMap.get socket_id (users w) = Some user →
  get_prop data (js "room") = Ok r →
  or_general (sanitizeInput r) ≠ User.room user →
  let oldRoom := User.room user in
  let newRoom := or_general (sanitizeInput r) in
  let moved := User.Make (User.username user) newRoom (User.socketId user) in
  let oldList := users_in_room oldRoom (users w) in
  let newList := users_in_room newRoom (JsMap.set socket_id moved (users w)) in
  ∃ w',
    on_change_room socket_id data w = (w', Ok ())
    ∧ users w' = JsMap.set socket_id moved (users w)
    ∧ (∀ c, c ∈ channels w'
            ↔ (c ∈ channels w ∧ c ≠ (socket_id, oldRoom)) ∨ c = (socket_id, newRoom))
    ∧ messageHistory w' = messageHistory w
    ∧ rateLimitMap w' = rateLimitMap w
    ∧ emitted w w'
      = [Emit (ToRoom oldRoom) "user_left"
           (PMessage (SystemMessage (User.username user ++ js " a quitté la salle")
                        (now_of w) oldRoom));
         Emit (ToRoom oldRoom) "users_list" (PUsersList oldList);
         Emit (ToSocket socket_id) "message_history" (PHistory (history_of w newRoom));
         Emit (ToRoom newRoom) "user_joined"
           (PMessage (SystemMessage (User.username user ++ js " a rejoint la salle")
                        (clock w (S (ticks w))) newRoom));
         Emit (ToRoom newRoom) "users_list" (PUsersList newList);
         Emit (ToSocket socket_id) "room_changed" (PRoomChanged newRoom (length newList))]
    ∧ (User.username user, socket_id) ∈ oldList
    ∧ (User.username user, socket_id) ∈ newList.
Proof.
  intros Huser Hr Hother oldRoom newRoom moved oldList newList.
  unfold on_change_room, try_catch, mbind, M_bind. unfold gets at 1.
  rewrite Huser, Hr. mred. fold oldRoom newRoom.
  rewrite bool_decide_eq_false_2 by (intros Heq; by apply Hother).
  mred. fold moved.
  eexists. split; [reflexivity|]. wproj. rewrite !set_set_eq. fold newList oldList.
  split; [done|]. split; [|split; [done|split; [done|split; [|split]]]].
  - intros c. destruct (decide ((socket_id, newRoom) ∈ _)) as [Hin|Hnotin].
    + apply list_elem_of_filter in Hin. rewrite list_elem_of_filter. naive_solver.
    + rewrite elem_of_app, list_elem_of_filter, list_elem_of_singleton. naive_solver.
  - unfold emitted. wproj. rewrite <- !app_assoc. by rewrite drop_app_length.
  - by apply registered_in_own_room.
  - apply (registered_in_own_room _ socket_id moved), get_set_eq.
Qed.

Lemma change_room_moves_witness :
  let user := alice_tech in
  let r := VString (js "gaming") in
  let oldRoom := User.room user in
  let newRoom := or_general (sanitizeInput r) in
  let moved := User.Make (User.username user) newRoom (User.socketId user) in
  let oldList := users_in_room oldRoom (users w_alice) in
  let newList := users_in_room newRoom (JsMap.set (js "s1") moved (users w_alice)) in
  ∃ w',
    on_change_room (js "s1") (room_data "gaming") w_alice = (w', Ok ())
    ∧ users w' = JsMap.set (js "s1") moved (users w_alice)
    ∧ (∀ c, c ∈ channels w'
            ↔ (c ∈ channels w_alice ∧ c ≠ (js "s1", oldRoom)) ∨ c = (js "s1", newRoom))
    ∧ messageHistory w' = messageHistory w_alice
    ∧ rateLimitMap w' = rateLimitMap w_alice
    ∧ emitted w_alice w'
      = [Emit (ToRoom oldRoom) "user_left"
           (PMessage (SystemMessage (User.username user ++ js " a quitté la salle")
                        (now_of w_alice) oldRoom));
         Emit (ToRoom oldRoom) "users_list" (PUsersList oldList);
         Emit (ToSocket (js "s1")) "message_history" (PHistory (history_of w_alice newRoom));
         Emit (ToRoom newRoom) "user_joined"
           (PMessage (SystemMessage (User.username user ++ js " a rejoint la salle")
                        (clock w_alice (S (ticks w_alice))) newRoom));
         Emit (ToRoom newRoom) "users_list" (PUsersList newList);
         Emit (ToSocket (js "s1")) "room_changed" (PRoomChanged newRoom (length newList))]
    ∧ (User.username user, js "s1") ∈ oldList
    ∧ (User.username user, js "s1") ∈ newList.
Proof.
  refine (change_room_moves w_alice (js "s1") (room_data "gaming") (VString (js "gaming"))
            alice_tech _ _ _).
  - vm_compute. reflexivity.
  - reflexivity.
  - vm_compute. discriminate.
Defined.

Lemma set_keys {V} (k : jsstring) (v : V) (m : list (jsstring * V)) :
  (JsMap.set k v m).*1 = if decide (k ∈ m.*1) then m.*1 else m.*1 ++ [k].
Proof.
  induction m as [|[k' v'] m IH]; cbn [JsMap.set fmap list_fmap fst].
  - rewrite decide_False; [done | apply not_elem_of_nil].
  - destruct (decide (k' = k)) as [->|Hne]; cbn [fmap list_fmap fst].
    + rewrite decide_True; [done | apply list_elem_of_here].
    + fold (fmap (M:=list) (@fst jsstring V)). rewrite IH.
      destruct (decide (k ∈ m.*1)) as [Hin|Hnotin].
      * rewrite decide_True; [done | by apply list_elem_of_further].
      * rewrite decide_False; [done|]. rewrite elem_of_cons. naive_solver.
Qed.

Lemma NoDup_set_keys {V} (k : jsstring) (v : V) (m : list (jsstring * V)) :
  NoDup m.*1 → NoDup (JsMap.set k v m).*1.
Proof.
  intros Hnd. rewrite set_keys. destruct (decide _) as [Hin|Hnotin]; [done|].
  apply NoDup_app. split; [done|]. split; [|apply NoDup_singleton].
  intros x Hx Hk. apply list_elem_of_singleton in Hk as ->. done.
Qed.

Lemma elem_get_iff {V} (k : jsstring) (v : V) (m : list (jsstring * V)) :
  NoDup m.*1 → (k, v) ∈ m ↔ JsMap.get k m = Some v.
Proof.
  intros Hnd. split; [|apply get_Some_elem].
  induction m as [|[k' v'] m IH]; intros Hin; [by apply not_elem_of_nil in Hin|].
  cbn [fmap list_fmap fst] in Hnd. apply NoDup_cons in Hnd as [Hnotin Hnd].
  cbn [JsMap.get]. apply elem_of_cons in Hin as [Heq|Hin].
  - injection Heq as -> ->. by rewrite decide_True.
  - destruct (decide (k' = k)) as [->|Hne]; [|by apply IH].
    exfalso. apply Hnotin. by apply (list_elem_of_fmap_2 fst _ (k, v)).
Qed.

(** The count that the loop of get_rooms reaches for [room]: what the
    accumulator held plus the number of entries in that room. *)
Lemma room_counts_get (entries : list (jsstring * User.t)) : ∀ acc room,
  JsMap.get room (room_counts entries acc)
  = match JsMap.get room acc with
    | Some n => Some (n + length (users_in_room room entries))%nat
    | None =>
        if decide (length (users_in_room room entries) = 0%nat) then None
        else Some (length (users_in_room room entries))
    end.
Proof.
  induction entries as [|[s u] entries IH]; intros acc room.
  - cbn [room_counts users_in_room length]. destruct (JsMap.get room acc); [|done].
    f_equal. lia.
  - cbn [room_counts users_in_room]. rewrite IH. clear IH.
    unfold JsMap.has.
    destruct (decide (User.room u = room)) as [->|Hne].
    + destruct (JsMap.get room acc) as [n|] eqn:Hacc.
      * rewrite bool_decide_eq_true_2 by (by eexists). cbn [negb].
        rewrite Hacc, get_set_eq. cbn [from_option id length]. f_equal. lia.
      * rewrite bool_decide_eq_false_2 by (by intros [? ?]). cbn [negb].
        rewrite !get_set_eq. cbn [from_option id length].
        rewrite decide_False by lia. f_equal.
    + destruct (JsMap.get (User.room u) acc) as [n|] eqn:Hacc.
      * rewrite bool_decide_eq_true_2 by (by eexists). cbn [negb].
        by rewrite get_set_ne.
      * rewrite bool_decide_eq_false_2 by (by intros [? ?]). cbn [negb].
        by rewrite !get_set_ne.
Qed.

Lemma NoDup_room_counts (entries : list (jsstring * User.t)) : ∀ acc,
  NoDup acc.*1 → NoDup (room_counts entries acc).*1.
Proof.
  induction entries as [|[s u] entries IH]; intros acc Hnd; [done|].
  cbn [room_counts]. apply IH, NoDup_set_keys.
  destruct (negb _); [by apply NoDup_set_keys | done].
Qed.

(** X16.  get_rooms answers any connection, Joined or not, with one
    rooms_list to that socket and changes nothing: the list names each
    room that has at least one registered user exactly once, with the
    number of users registered in it, and names no other room. *)
Theorem get_rooms_counts_users (w : world) (socket_id : jsstring) :
  ∃ rooms,
    on_get_rooms socket_id w
    = (with_outbox (λ o, o ++ [Emit (ToSocket socket_id) "rooms_list" (PRoomsList rooms)]) w,
       Ok ())
    ∧ NoDup rooms.*1
    ∧ ∀ room n,
        (room, n) ∈ rooms
        ↔ n = length (users_in_room room (users w)) ∧ (0 < n)%nat.
Proof.
  exists (room_counts (users w) []). split; [reflexivity|].
  assert (Hnd : NoDup (room_counts (users w) []).*1)
    by (apply NoDup_room_counts, NoDup_nil_2).
  split; [done|]. intros room n. rewrite (elem_get_iff _ _ _ Hnd), room_counts_get.
  cbn [JsMap.get]. destruct (decide _) as [Hz|Hnz]; [naive_solver lia|].
  split; [intros [= <-]; split; [done | lia] | intros [-> _]; done].
Qed.

(** X17.  get_users answers a Joined connection with one users_list sent
    to that socket alone, and changes nothing: the list is the list of the
    users registered in the connection's current room, the connection
    itself among them, and no user of another room. *)
Theorem get_users_lists_own_room (w : world) (socket_id : jsstring) (user : User.t) :
  JsMap.get socket_id (users w) = Some user →
  ∃ usersInRoom,
    on_get_users socket_id w
    = (with_outbox
         (λ o, o ++ [Emit (ToSocket socket_id) "users_list" (PUsersList usersInRoom)]) w,
       Ok ())
    ∧ (User.username user, socket_id) ∈ usersInRoom
    ∧ ∀ name s,
        (name, s) ∈ usersInRoom
        ↔ ∃ other, (s, other) ∈ users w
                   ∧ User.room other = User.room user ∧ User.username other = name.
Proof.
  intros Huser. exists (users_in_room (User.room user) (users w)).
  split; [|split; [by apply registered_in_own_room | intros; apply users_in_room_elem]].
  unfold on_get_users, mbind, M_bind. unfold gets at 1. by rewrite Huser.
Qed.

Lemma get_users_lists_own_room_witness :
  ∃ usersInRoom,
    on_get_users (js "s1") w_alice
    = (with_outbox
         (λ o, o ++ [Emit (ToSocket (js "s1")) "users_list" (PUsersList usersInRoom)])
         w_alice,
       Ok ())
    ∧ (User.username alice_tech, js "s1") ∈ usersInRoom
    ∧ ∀ name s,
        (name, s) ∈ usersInRoom
        ↔ ∃ other, (s, other) ∈ users w_alice
                   ∧ User.room other = User.room alice_tech ∧ User.username other = name.
Proof.
  apply (get_users_lists_own_room w_alice (js "s1") alice_tech).
  vm_compute. reflexivity.
Defined.

End Rooms.

(** ** What every reachable state satisfies *)

Section Invariants.

Lemma run_inv (P : world → Prop) :
  (∀ e w, P w → P (handle e w).1) →
  ∀ es w, P w → P (run es w).1.
Proof.
  intros Hstep es. induction es as [|e es IH]; intros w Hw; [done|].
  cbn [run]. unfold mbind, M_bind.
  specialize (Hstep e w Hw).
  destruct (handle e w) as [w1 [[]|]]; cbn [fst] in *; [by apply IH | done].
Qed.

Lemma reachable_inv (P : world → Prop) :
  (∀ clk, P (init clk)) →
  (∀ e w, P w → P (handle e w).1) →
  ∀ w, reachable w → P w.
Proof.
  intros Hinit Hstep w (clk & es & Hrun).
  pose proof (run_inv P Hstep es (init clk) (Hinit clk)) as H.
  by rewrite Hrun in H.
Qed.

Lemma delete_absent {V} (k : jsstring) (m : list (jsstring * V)) :
  JsMap.get k m = None → JsMap.delete k m = m.
Proof.
  induction m as [|[k' v'] m IH]; cbn [JsMap.get JsMap.delete]; [done|].
  destruct (decide (k' = k)); [done|]. intros H. by rewrite IH.
Qed.

(** What one event does to the registry and to the channels. *)
Lemma handle_registry_effect (e : event) (w : world) :
  (users (handle e w).1 = users w ∧ channels (handle e w).1 = channels w)
  ∨ (∃ s d u r,
        e = Join s d ∧ join_accepted w d u r
        ∧ users (handle e w).1
          = JsMap.set s (User.Make (sanitizeInput u) (or_general (sanitizeInput r)) s) (users w)
        ∧ channels (handle e w).1
          = join_channel s (or_general (sanitizeInput r)) (channels w))
  ∨ (∃ s, e = Disconnect s
          ∧ users (handle e w).1 = JsMap.delete s (users w)
          ∧ channels (handle e w).1 = channels w)
  ∨ (∃ s d user r,
        e = ChangeRoom s d ∧ JsMap.get s (users w) = Some user
        ∧ users (handle e w).1
          = JsMap.set s (User.Make (User.username user) (or_general (sanitizeInput r))
                           (User.socketId user)) (users w)
        ∧ channels (handle e w).1
          = rejoin_channels s (User.room user) (or_general (sanitizeInput r)) (channels w)).
Proof.
  destruct e; cbn [handle];
    unfold on_join, on_chat_message, on_private_message, on_typing, on_change_room,
      on_disconnect, on_get_users, on_get_rooms;
    repeat mstep; simplify_eq; wproj; rewrite ?set_set_eq;
    first [ left; split; reflexivity
          | right; left; eexists _, _, _, _; split; [reflexivity|];
            split; [|split; reflexivity];
            split; [eassumption|]; split; [eassumption|];
            match goal with
            | H : _ || _ = false |- _ =>
                apply orb_false_iff in H as [_ H]; apply Nat.ltb_ge in H
            end;
            split; [assumption | by apply negb_false_iff]
          | right; right; left; eexists; split; [reflexivity|]; split;
            [first [reflexivity | symmetry; by apply delete_absent] | reflexivity]
          | right; right; right; eexists _, _, _, _; split; [reflexivity|];
            split; [eassumption|]; split; reflexivity ].
Qed.

Lemma length_sanitizeInput (text : value) : (length (sanitizeInput text) ≤ 500)%nat.
Proof.
  destruct text; cbn [sanitizeInput length]; try lia.
  unfold substring0. rewrite length_take. lia.
Qed.

Lemma or_general_ok (s : jsstring) :
  (length s ≤ 500)%nat → markup_free s →
  (1 ≤ length (or_general s) ≤ 500)%nat ∧ markup_free (or_general s).
Proof.
  intros Hlen Hfree. unfold or_general. case_bool_decide as Hs.
  - split; [vm_compute; lia | vm_compute; repeat constructor].
  - split; [|done]. destruct s; [done | cbn [length] in *; lia].
Qed.

Lemma elem_of_set {V} (k s : jsstring) (u v : V) (m : list (jsstring * V)) :
  NoDup m.*1 →
  (k, u) ∈ JsMap.set s v m ↔ (k = s ∧ u = v) ∨ (k ≠ s ∧ (k, u) ∈ m).
Proof.
  intros Hnd.
  rewrite (elem_get_iff _ _ _ (NoDup_set_keys s v m Hnd)), (elem_get_iff _ _ _ Hnd).
  destruct (decide (k = s)) as [->|Hne].
  - rewrite get_set_eq. naive_solver.
  - rewrite get_set_ne by done. naive_solver.
Qed.

Lemma elem_of_delete {V} (k s : jsstring) (u : V) (m : list (jsstring * V)) :
  (k, u) ∈ JsMap.delete s m → k ≠ s ∧ (k, u) ∈ m.
Proof.
  induction m as [|[k' v'] m IH]; cbn [JsMap.delete]; [intros H; by apply not_elem_of_nil in H|].
  destruct (decide (k' = s)) as [->|Hne].
  - intros H. destruct (IH H). split; [done | by apply list_elem_of_further].
  - rewrite !elem_of_cons. intros [[= -> ->]|H]; [by split; [|left]|].
    destruct (IH H). split; [done | by right].
Qed.

Lemma NoDup_delete_keys {V} (s : jsstring) (m : list (jsstring * V)) :
  NoDup m.*1 → NoDup (JsMap.delete s m).*1.
Proof.
  induction m as [|[k' v'] m IH]; cbn [JsMap.delete fmap list_fmap fst]; [done|].
  fold (fmap (M:=list) (@fst jsstring V)).
  intros Hnd. apply NoDup_cons in Hnd as [Hnotin Hnd].
  destruct (decide (k' = s)); [by apply IH|].
  cbn [fmap list_fmap fst]. fold (fmap (M:=list) (@fst jsstring V)).
  apply NoDup_cons. split; [|by apply IH].
  intros Hin. apply list_elem_of_fmap in Hin as ([k v] & -> & Hin).
  apply elem_of_delete in Hin as [_ Hin]. apply Hnotin.
  by apply (list_elem_of_fmap_2 fst _ (k, v)).
Qed.

Lemma elem_of_join_channel s room c p :
  p ∈ join_channel s room c ↔ p ∈ c ∨ p = (s, room).
Proof.
  unfold join_channel. destruct (decide _) as [Hin|Hnotin]; [naive_solver|].
  rewrite elem_of_app, list_elem_of_singleton. naive_solver.
Qed.

Lemma elem_of_rejoin_channels s oldRoom newRoom c p :
  p ∈ rejoin_channels s oldRoom newRoom c
  ↔ (p ∈ c ∧ p ≠ (s, oldRoom)) ∨ p = (s, newRoom).
Proof.
  unfold rejoin_channels. cbv zeta.
  destruct (decide ((s, newRoom) ∈ _)) as [Hin|Hnotin].
  - apply list_elem_of_filter in Hin. rewrite list_elem_of_filter. naive_solver.
  - rewrite elem_of_app, list_elem_of_filter, list_elem_of_singleton. naive_solver.
Qed.

Lemma registry_inv_step (e : event) (w : world) :
  registry_inv w → registry_inv (handle e w).1.
Proof.
  intros [Hnd Hent]. unfold registry_inv.
  destruct (handle_registry_effect e w)
    as [[-> ->]
       |[(s & d & u & r & _ & (_ & _ & Hlen & _) & -> & ->)
        |[(s & _ & -> & ->)
         |(s & d & user & r & _ & Huser & -> & ->)]]].
  - done.
  - split; [by apply NoDup_set_keys|].
    intros k v Hin. apply (elem_of_set _ _ _ _ _ Hnd) in Hin as [[-> ->]|[Hne Hin]].
    + destruct (or_general_ok (sanitizeInput r) (length_sanitizeInput r)
                  (sanitizeInput_markup_free r)) as [Hrl Hrf].
      split; [|apply elem_of_join_channel; by right].
      pose proof (length_sanitizeInput u). pose proof (sanitizeInput_markup_free u).
      repeat split; cbn [User.username User.room User.socketId]; try done; lia.
    + destruct (Hent k v Hin). split; [done|]. apply elem_of_join_channel. by left.
  - split; [by apply NoDup_delete_keys|].
    intros k v Hin. apply elem_of_delete in Hin as [_ Hin]. by apply Hent.
  - split; [by apply NoDup_set_keys|].
    intros k v Hin. apply (elem_of_set _ _ _ _ _ Hnd) in Hin as [[-> ->]|[Hne Hin]].
    + destruct (or_general_ok (sanitizeInput r) (length_sanitizeInput r)
                  (sanitizeInput_markup_free r)) as [Hrl Hrf].
      destruct (Hent s user (get_Some_elem _ _ _ Huser)) as [(Hid & Hul & _ & Huf & _) _].
      split; [|apply elem_of_rejoin_channels; by right].
      repeat split; cbn [User.username User.room User.socketId]; try done; lia.
    + destruct (Hent k v Hin) as [Hok Hch]. split; [done|].
      apply elem_of_rejoin_channels. left. split; [done|]. congruence.
Qed.

Lemma reachable_registry_inv (w : world) : reachable w → registry_inv w.
Proof.
  apply reachable_inv; [|apply registry_inv_step].
  intros clk. split; [apply NoDup_nil_2|].
  intros k u Hin. by apply not_elem_of_nil in Hin.
Qed.

(** X18.  In every reachable state the registry holds at most one entry
    per socket id, and every entry is well formed: it carries the socket id
    it is filed under, its username has 2 to 500 code units, its room name
    1 to 500, and neither holds a markup character. *)
Theorem registry_entries_well_formed (w : world) (socket_id : jsstring) (user : User.t) :
  reachable w →
  (socket_id, user) ∈ users w →
  NoDup (users w).*1
  ∧ JsMap.get socket_id (users w) = Some user
  ∧ entry_ok socket_id user.
Proof.
  intros Hreach Hin. destruct (reachable_registry_inv w Hreach) as [Hnd Hent].
  split; [done|]. split; [by apply elem_get_iff | by apply Hent].
Qed.

Lemma registry_entries_well_formed_witness :
  NoDup (users w_chat).*1
  ∧ JsMap.get (js "s1") (users w_chat) = Some alice_tech
  ∧ entry_ok (js "s1") alice_tech.
Proof.
  apply (registry_entries_well_formed w_chat (js "s1") alice_tech).
  - apply reachable_run. vm_compute. reflexivity.
  - vm_compute. apply list_elem_of_here.
Defined.

(** X19.  In every reachable state a registered connection is a member of
    the transport channel of the room its entry names, so that broadcasts
    to its room reach it. *)
Theorem registered_socket_is_in_its_channel (w : world) (socket_id : jsstring)
    (user : User.t) :
  reachable w →
  JsMap.get socket_id (users w) = Some user →
  (socket_id, User.room user) ∈ channels w.
Proof.
  intros Hreach Hget. destruct (reachable_registry_inv w Hreach) as [_ Hent].
  by apply (Hent socket_id user), get_Some_elem.
Qed.

Lemma registered_socket_is_in_its_channel_witness :
  (js "s1", User.room alice_tech) ∈ channels w_chat.
Proof.
  apply (registered_socket_is_in_its_channel w_chat (js "s1") alice_tech).
  - apply reachable_run. vm_compute. reflexivity.
  - vm_compute. reflexivity.
Defined.

(** What one event does to the rate windows, with what it does to the
    registry then. *)
Lemma handle_limiter_effect (e : event) (w : world) :
  (rateLimitMap (handle e w).1 = rateLimitMap w
   ∧ ∀ k, is_Some (JsMap.get k (users w)) → is_Some (JsMap.get k (users (handle e w).1)))
  ∨ (∃ stored,
        users (handle e w).1 = users w
        ∧ is_Some (JsMap.get (event_socket e) (users w))
        ∧ rateLimitMap (handle e w).1 = <[event_socket e := stored]> (rateLimitMap w)
        ∧ (stored = recent (now_of w) (stored_of w (event_socket e))
           ∨ (length (recent (now_of w) (stored_of w (event_socket e))) < RATE_LIMIT_MAX)%nat
             ∧ ∃ t, stored = recent (now_of w) (stored_of w (event_socket e)) ++ [t]))
  ∨ (∃ s, e = Disconnect s
          ∧ rateLimitMap (handle e w).1 = delete s (rateLimitMap w)
          ∧ users (handle e w).1 = JsMap.delete s (users w)).
Proof.
  destruct e; cbn [handle event_socket];
    unfold on_join, on_chat_message, on_private_message, on_typing, on_change_room,
      on_disconnect, on_get_users, on_get_rooms;
    repeat mstep; simplify_eq; wproj;
    rewrite ?stored_of_insert, ?decide_True, ?insert_insert_eq, ?set_set_eq by done;
    first [ left; split; [reflexivity|]; intros k Hk;
            first [ exact Hk
                  | destruct (decide (k = socket_id)) as [->|Hne];
                    [ rewrite get_set_eq; by eexists
                    | by rewrite get_set_ne ] ]
          | right; left; eexists; split; [reflexivity|]; split; [by eexists|];
            split; [reflexivity|];
            first [ by left
                  | right; split; [|by eexists];
                    match goal with
                    | H : bool_decide _ = false |- _ =>
                        apply bool_decide_eq_false in H; lia
                    end ]
          | right; right; eexists; split; [reflexivity|]; split; [reflexivity|];
            first [reflexivity | symmetry; by apply delete_absent] ].
Qed.

Lemma length_recent now (l : list Z) : (length (recent now l) ≤ length l)%nat.
Proof. apply length_filter. Qed.

Lemma limiter_inv_step (e : event) (w : world) :
  limiter_inv w → limiter_inv (handle e w).1.
Proof.
  intros Hinv.
  destruct (handle_limiter_effect e w)
    as [[Hrl Hus]|[(stored & Hus & Hreg & Hrl & Hst)|(s & _ & Hrl & Hus)]];
    intros k l Hl; rewrite Hrl in Hl.
  - destruct (Hinv k l Hl). split; [done | by apply Hus].
  - rewrite Hus. rewrite lookup_insert in Hl.
    destruct (decide (event_socket e = k)) as [<-|Hne]; [|by apply Hinv].
    injection Hl as <-. split; [|done].
    assert (length (stored_of w (event_socket e)) ≤ RATE_LIMIT_MAX)%nat as Hold.
    { unfold stored_of.
      destruct (rateLimitMap w !! event_socket e) as [old|] eqn:Hold; cbn [from_option id].
      - by apply (Hinv _ _ Hold).
      - cbn [length]. lia. }
    pose proof (length_recent (now_of w) (stored_of w (event_socket e))).
    destruct Hst as [->|(Hlt & t & ->)]; [lia|].
    rewrite length_app. cbn [length]. lia.
  - rewrite Hus. rewrite lookup_delete in Hl.
    destruct (decide (s = k)) as [->|Hne]; [done|].
    destruct (Hinv k l Hl) as [Hlen Hreg]. split; [done|].
    by rewrite get_delete_ne.
Qed.

Lemma reachable_limiter_inv (w : world) : reachable w → limiter_inv w.
Proof.
  apply reachable_inv; [|apply limiter_inv_step].
  intros clk k l Hl. unfold init in Hl. cbn [rateLimitMap] in Hl.
  by rewrite lookup_empty in Hl.
Qed.

(** X20.  In every reachable state a stored rate window holds at most 10
    timestamps, and it belongs to a connection that is registered: the
    windows of connections that left are gone. *)
Theorem rate_windows_bounded (w : world) (socketId : jsstring) (stored : list Z) :
  reachable w →
  rateLimitMap w !! socketId = Some stored →
  (length stored ≤ 10)%nat ∧ is_Some (JsMap.get socketId (users w)).
Proof. intros Hreach. by apply reachable_limiter_inv. Qed.

Lemma rate_windows_bounded_witness :
  (length [1000002%Z] ≤ 10)%nat ∧ is_Some (JsMap.get (js "s1") (users w_chat)).
Proof.
  apply (rate_windows_bounded w_chat (js "s1") [1000002%Z]).
  - apply reachable_run. vm_compute. reflexivity.
  - vm_compute. reflexivity.
Defined.

(** What one event does to the history store: nothing, or the append of
    the message built for an accepted chat_message to the sender's room. *)
Lemma handle_store_effect (e : event) (w : world) :
  messageHistory (handle e w).1 = messageHistory w
  ∨ ∃ s d user m,
      e = ChatMessage s d
      ∧ JsMap.get s (users w) = Some user
      ∧ sanitizeInput m ≠ []
      ∧ messageHistory (handle e w).1
        = <[User.room user := push_capped (history_of w (User.room user))
                                (sent_message w s user m)]> (messageHistory w).
Proof.
  destruct e; cbn [handle];
    unfold on_join, on_chat_message, on_private_message, on_typing, on_change_room,
      on_disconnect, on_get_users, on_get_rooms;
    repeat mstep; simplify_eq; wproj;
    first [ left; reflexivity
          | right; eexists _, _, _, _; split; [reflexivity|];
            split; [eassumption|]; split; [|reflexivity];
            match goal with
            | H : falsy ?x || _ = false |- ?x ≠ [] =>
                apply orb_false_iff in H as [H _];
                by apply bool_decide_eq_false in H
            end ].
Qed.

Lemma length_push_capped (history : list message) (msg : message) :
  (length history ≤ 100)%nat → (length (push_capped history msg) ≤ 100)%nat.
Proof.
  intros Hlen. unfold push_capped. rewrite length_app. cbn [length].
  case_bool_decide; [rewrite length_drop|]; lia.
Qed.

Lemma Forall_push_capped (P : message → Prop) (history : list message) (msg : message) :
  Forall P history → P msg → Forall P (push_capped history msg).
Proof.
  intros Hh Hm. unfold push_capped. apply Forall_app. split; [|by constructor].
  case_bool_decide; [by apply Forall_drop | done].
Qed.

Lemma history_inv_step (e : event) (w : world) :
  history_inv w → history_inv (handle e w).1.
Proof.
  intros Hinv. unfold history_inv.
  destruct (handle_store_effect e w) as [->|(s & d & user & m & _ & _ & Hne & ->)]; [done|].
  intros room history Hlook. rewrite lookup_insert in Hlook.
  destruct (decide (User.room user = room)) as [<-|Hroom]; [|by apply Hinv].
  injection Hlook as <-.
  assert (Hold : (length (history_of w (User.room user)) ≤ 100)%nat
                 ∧ Forall (stored_ok (User.room user)) (history_of w (User.room user))).
  { unfold history_of.
    destruct (messageHistory w !! User.room user) as [h|] eqn:Hh; cbn [from_option id].
    - by apply Hinv.
    - split; [cbn [length]; lia | constructor]. }
  destruct Hold as [Hlen Hall].
  split; [by apply length_push_capped|].
  apply Forall_push_capped; [done|].
  eexists _, _, _, _. split; [reflexivity|].
  split; [|apply sanitizeInput_markup_free].
  pose proof (length_sanitizeInput m).
  destruct (sanitizeInput m); [done | cbn [length] in *; lia].
Qed.

Lemma reachable_history_inv (w : world) : reachable w → history_inv w.
Proof.
  apply reachable_inv; [|apply history_inv_step].
  intros clk room history Hl. unfold init in Hl. cbn [messageHistory] in Hl.
  by rewrite lookup_empty in Hl.
Qed.

(** X21.  In every reachable state no history buffer holds more than 100
    messages, and every stored message is a user message filed under the
    room it names, with a text of 1 to 500 code units that holds no markup
    character. *)
Theorem history_buffers_well_formed (w : world) (room : jsstring)
    (history : list message) (msg : message) :
  reachable w →
  messageHistory w !! room = Some history →
  msg ∈ history →
  (length history ≤ 100)%nat ∧ stored_ok room msg.
Proof.
  intros Hreach Hlook Hin.
  destruct (reachable_history_inv w Hreach room history Hlook) as [Hlen Hall].
  split; [done|]. rewrite Forall_forall in Hall. by apply Hall.
Qed.

Lemma history_buffers_well_formed_witness :
  let msg := UserMessage (js "alice") (js "&lt;script&gt;") 1000003 (js "tech") (js "s1") in
  (length [msg] ≤ 100)%nat ∧ stored_ok (js "tech") msg.
Proof.
  apply (history_buffers_well_formed w_chat (js "tech")
           [UserMessage (js "alice") (js "&lt;script&gt;") 1000003 (js "tech") (js "s1")]).
  - apply reachable_run. vm_compute. reflexivity.
  - vm_compute. reflexivity.
  - apply list_elem_of_here.
Defined.

End Invariants.

(** ** Joining and leaving *)

Section Sessions.

(** X22.  An accepted join registers the connection under its socket id
    with the sanitized username and the (defaulted) room, and leaves the
    entries of all other connections, the history store and the rate
    windows as they were.  It emits four events: the room's stored history
    to the joining socket alone, the joined notice and the user list to the
    room, the confirmation to the socket; the list holds the joiner, and
    the count in the confirmation is the length of that list. *)
Theorem join_registers (w : world) (socket_id : jsstring) (data u r : value) :
  join_accepted w data u r →
  let username := sanitizeInput u in
  let room := or_general (sanitizeInput r) in
  ∃ w' usersInRoom,
    on_join socket_id data w = (w', Ok ())
    ∧ JsMap.get socket_id (users w') = Some (User.Make username room socket_id)
    ∧ (∀ s, s ≠ socket_id → JsMap.get s (users w') = JsMap.get s (users w))
    ∧ messageHistory w' = messageHistory w
    ∧ rateLimitMap w' = rateLimitMap w
    ∧ emitted w w'
      = [Emit (ToSocket socket_id) "message_history" (PHistory (history_of w room));
         Emit (ToRoom room) "user_joined"
           (PMessage (SystemMessage (username ++ js " a rejoint le chat") (now_of w) room));
         Emit (ToRoom room) "users_list" (PUsersList usersInRoom);
         Emit (ToSocket socket_id) "join_success"
           (PJoinSuccess username room (length usersInRoom))]
    ∧ usersInRoom = users_in_room room (users w')
    ∧ (username, socket_id) ∈ usersInRoom.
Proof.
  intros Hacc username room.
  destruct (on_join_accepted w socket_id data u r Hacc)
    as (w' & Hjoin & Hus & _ & Hmh & Hrl & _ & Hout).
  exists w', (users_in_room room (users w')).
  split; [done|]. rewrite Hus.
  split; [apply get_set_eq|].
  split; [intros s Hs; by apply get_set_ne|].
  split; [done|]. split; [done|].
  split; [by apply emitted_app|]. split; [done|].
  apply (registered_in_own_room _ socket_id (User.Make username room socket_id)), get_set_eq.
Qed.

Lemma join_registers_witness :
  let username := sanitizeInput (VString (js "bob")) in
  let room := or_general (sanitizeInput VUndefined) in
  ∃ w' usersInRoom,
    on_join (js "s2") (VObject [(js "username", VString (js "bob"))]) w_alice = (w', Ok ())
    ∧ JsMap.get (js "s2") (users w') = Some (User.Make username room (js "s2"))
    ∧ (∀ s, s ≠ js "s2" → JsMap.get s (users w') = JsMap.get s (users w_alice))
    ∧ messageHistory w' = messageHistory w_alice
    ∧ rateLimitMap w' = rateLimitMap w_alice
    ∧ emitted w_alice w'
      = [Emit (ToSocket (js "s2")) "message_history" (PHistory (history_of w_alice room));
         Emit (ToRoom room) "user_joined"
           (PMessage (SystemMessage (username ++ js " a rejoint le chat")
                        (now_of w_alice) room));
         Emit (ToRoom room) "users_list" (PUsersList usersInRoom);
         Emit (ToSocket (js "s2")) "join_success"
           (PJoinSuccess username room (length usersInRoom))]
    ∧ usersInRoom = users_in_room room (users w')
    ∧ (username, js "s2") ∈ usersInRoom.
Proof.
  refine (join_registers w_alice (js "s2") (VObject [(js "username", VString (js "bob"))])
            (VString (js "bob")) VUndefined _).
  split; [reflexivity | split; [reflexivity | split; [vm_compute; lia|]]].
  vm_compute. reflexivity.
Defined.

(** X23.  Once a join has been accepted, the same join sent again, from
    any socket including the one that just joined, is refused as a name
    that is taken: one error goes to the requesting socket and nothing else
    changes. *)
Theorem accepted_join_takes_the_name (w : world) (socket_id other : jsstring)
    (data u r : value) :
  join_accepted w data u r →
  ∃ w1,
    on_join socket_id data w = (w1, Ok ())
    ∧ on_join other data w1
      = (with_outbox
           (λ o, o ++ [error_to other "Ce nom d'utilisateur est déjà pris dans cette salle"])
           w1,
         Ok ()).
Proof.
  intros Hacc.
  destruct (on_join_accepted w socket_id data u r Hacc) as (w1 & Hjoin & Hus & _).
  exists w1. split; [done|].
  destruct Hacc as (Hu & Hr & Hlen & _).
  assert (Htaken : username_free (sanitizeInput u) (or_general (sanitizeInput r)) (users w1)
                   = false).
  { apply username_free_false. exists socket_id. rewrite Hus.
    apply (registered_in_own_room _ socket_id
             (User.Make (sanitizeInput u) (or_general (sanitizeInput r)) socket_id)),
      get_set_eq. }
  unfold on_join, try_catch, mbind, M_bind. rewrite Hu, Hr. mred.
  replace (falsy (sanitizeInput u) || (length (sanitizeInput u) <? 2)%nat) with false; cycle 1.
  { symmetry. apply orb_false_iff. split.
    - apply bool_decide_eq_false_2. intros Heq. rewrite Heq in Hlen. cbn [length] in Hlen. lia.
    - by apply Nat.ltb_ge. }
  by rewrite Htaken.
Qed.

Lemma accepted_join_takes_the_name_witness :
  ∃ w1,
    on_join (js "s2") (join_data "bob" "tech") w_alice = (w1, Ok ())
    ∧ on_join (js "s2") (join_data "bob" "tech") w1
      = (with_outbox
           (λ o, o ++ [error_to (js "s2")
                         "Ce nom d'utilisateur est déjà pris dans cette salle"])
           w1,
         Ok ()).
Proof.
  refine (accepted_join_takes_the_name w_alice (js "s2") (js "s2") (join_data "bob" "tech")
            (VString (js "bob")) (VString (js "tech")) _).
  split; [reflexivity | split; [reflexivity | split; [vm_compute; lia|]]].
  vm_compute. reflexivity.
Defined.

(** X24.  The disconnect of a Joined connection tells its room: a left
    notice and then the user list of the room, read after the entry is
    removed, so that the list no longer holds the connection.  The history
    store, the channels and the entries of the other connections are left
    as they were. *)
Theorem disconnect_notifies_the_room (w : world) (socket_id : jsstring) (user : User.t) :
  JsMap.get socket_id (users w) = Some user →
  let remaining := users_in_room (User.room user) (JsMap.delete socket_id (users w)) in
  ∃ w1,
    on_disconnect socket_id w = (w1, Ok ())
    ∧ emitted w w1
      = [Emit (ToRoom (User.room user)) "user_left"
           (PMessage (SystemMessage (User.username user ++ js " a quitté le chat")
                        (now_of w) (User.room user)));
         Emit (ToRoom (User.room user)) "users_list" (PUsersList remaining)]
    ∧ (∀ name, (name, socket_id) ∉ remaining)
    ∧ messageHistory w1 = messageHistory w
    ∧ channels w1 = channels w
    ∧ ∀ s, s ≠ socket_id → JsMap.get s (users w1) = JsMap.get s (users w).
Proof.
  intros Huser remaining.
  destruct (on_disconnect_present w socket_id user Huser)
    as (w1 & Hrun & Hus & _ & Hmh & Hch & Hout).
  exists w1. split; [done|]. split; [by apply emitted_app|].
  split; [|split; [done|split; [done|]]].
  - intros name Hin. apply users_in_room_elem in Hin as (other & Hin & _).
    by apply (get_None_elem socket_id other) in Hin; [|apply get_delete_eq].
  - intros s Hs. rewrite Hus. by apply get_delete_ne.
Qed.

Lemma disconnect_notifies_the_room_witness :
  let remaining :=
    users_in_room (User.room alice_tech) (JsMap.delete (js "s1") (users w_chat)) in
  ∃ w1,
    on_disconnect (js "s1") w_chat = (w1, Ok ())
    ∧ emitted w_chat w1
      = [Emit (ToRoom (User.room alice_tech)) "user_left"
           (PMessage (SystemMessage (User.username alice_tech ++ js " a quitté le chat")
                        (now_of w_chat) (User.room alice_tech)));
         Emit (ToRoom (User.room alice_tech)) "users_list" (PUsersList remaining)]
    ∧ (∀ name, (name, js "s1") ∉ remaining)
    ∧ messageHistory w1 = messageHistory w_chat
    ∧ channels w1 = channels w_chat
    ∧ ∀ s, s ≠ js "s1" → JsMap.get s (users w1) = JsMap.get s (users w_chat).
Proof.
  refine (disconnect_notifies_the_room w_chat (js "s1") alice_tech _).
  vm_compute. reflexivity.
Defined.

End Sessions.
